(** * Audio utilities: chunked processing, segment extraction, microphone recording

    A shallow embedding of [src/index.ts].  The TypeScript code is glue around
    external processes (ffprobe, ffmpeg, sox); those are modelled as oracles
    acting on an abstract world, and every call the code makes to them is
    recorded in a trace.

    Numbers.  A JavaScript [number] is modelled by [number] below: NaN, the
    two infinities, or a rational; the doubles are the rationals that binary64
    represents ([isDouble]).  Comparisons, truthiness and [!=] are those of IEEE doubles
    (the two zeros are identified, which no operation of this program tells
    apart).  Addition, subtraction and multiplication compute the exact
    result and round it to binary64 with [round64]: to the nearest double,
    ties to even, with overflow to infinity and gradual underflow. *)

From Stdlib Require Import ZArith QArith Qround Qreduction Qpower Lqa Lia Bool List String Ascii.
From Stdlib Require DecimalString DecimalPos Qcanon.
Import ListNotations.

Local Open Scope string_scope.
Local Open Scope Q_scope.

(** ** JavaScript numbers *)

Inductive number : Type :=
| NaN
| Infinity (negative : bool)
| Num (q : Q).

Definition Qlt_bool (x y : Q) : bool := negb (Qle_bool y x).

(** [ToBoolean]: 0 and NaN are falsy, every other number is truthy. *)
Definition ToBoolean (n : number) : bool :=
  match n with
  | NaN => false
  | Infinity _ => true
  | Num q => negb (Qeq_bool q 0)
  end.

(** [a < b] *)
Definition num_lt (a b : number) : bool :=
  match a, b with
  | NaN, _ | _, NaN => false
  | Infinity na, Infinity nb => na && negb nb
  | Infinity na, Num _ => na
  | Num _, Infinity nb => negb nb
  | Num x, Num y => Qlt_bool x y
  end.

(** [a > b] *)
Definition num_gt (a b : number) : bool := num_lt b a.

(** [a <= b] *)
Definition num_le (a b : number) : bool :=
  match a, b with
  | NaN, _ | _, NaN => false
  | _, _ => negb (num_lt b a)
  end.

(** [a == b] on numbers; [a != b] is its negation. *)
Definition num_eq (a b : number) : bool :=
  match a, b with
  | Infinity na, Infinity nb => Bool.eqb na nb
  | Num x, Num y => Qeq_bool x y
  | _, _ => false
  end.

Definition num_neq (a b : number) : bool := negb (num_eq a b).

Definition num_neg (a : number) : number :=
  match a with
  | NaN => NaN
  | Infinity n => Infinity (negb n)
  | Num x => Num (- x)
  end.

(** *** Rounding to binary64 *)

(** [a / b] rounded to the nearest integer, ties to the even one
    ([a >= 0], [b > 0]). *)
Definition roundHalfEven (a b : Z) : Z :=
  let f := (a / b)%Z in
  match (2 * (a mod b) ?= b)%Z with
  | Lt => f
  | Gt => (f + 1)%Z
  | Eq => if Z.even f then f else (f + 1)%Z
  end.

(** [(a / b) / 2^k] as a fraction of integers. *)
Definition scale2 (a b k : Z) : Z * Z :=
  if (0 <=? k)%Z then (a, (b * 2 ^ k)%Z) else ((a * 2 ^ (- k))%Z, b).

(** [floor (log2 (a / b))] for positive [a] and [b]. *)
Definition floorLog2 (a b : Z) : Z :=
  let e := (Z.log2 a - Z.log2 b)%Z in
  let (x, y) := scale2 a b e in
  if (y <=? x)%Z then e else (e - 1)%Z.

(** The double nearest to [a / b] > 0.  The doubles around [a / b] are the
    multiples of [2^k], where [k] is 52 below the binary exponent of [a / b]
    and at least -1074 (the subnormals); [a / b] is rounded to the nearest of
    them, ties to the even multiple; a result of [2^1024] or more is
    infinity. *)
Definition roundPositive (a b : Z) : number :=
  let e := floorLog2 a b in
  let k := Z.max (e - 52) (-1074) in
  let (x, y) := scale2 a b k in
  let m := roundHalfEven x y in
  if (971 <? k)%Z || ((k =? 971)%Z && (2 ^ 53 <=? m)%Z) then Infinity false
  else Num (Qred (if (0 <=? k)%Z then inject_Z (m * 2 ^ k)
                  else Qmake m (Z.to_pos (2 ^ (- k))))).

(** The binary64 value of the real number [q]. *)
Definition round64 (q : Q) : number :=
  match Qnum (Qred q) with
  | Z0 => Num 0
  | Zpos n => roundPositive (Zpos n) (Zpos (Qden (Qred q)))
  | Zneg n => num_neg (roundPositive (Zpos n) (Zpos (Qden (Qred q))))
  end.

(** [m * 2^k] as a fraction. *)
Definition dyadic (m k : Z) : Q :=
  if (0 <=? k)%Z then inject_Z (m * 2 ^ k) else Qmake m (Z.to_pos (2 ^ (- k))).

(** The finite binary64 values: 53 bits of magnitude, binary exponent from
    -1074 to 971. *)
Definition isDouble (q : Q) : Prop :=
  exists m k : Z, (Z.abs m < 2 ^ 53)%Z /\ (-1074 <= k <= 971)%Z /\ q == dyadic m k.

(** [a + b] *)
Definition num_add (a b : number) : number :=
  match a, b with
  | NaN, _ | _, NaN => NaN
  | Infinity na, Infinity nb => if Bool.eqb na nb then Infinity na else NaN
  | Infinity na, Num _ => Infinity na
  | Num _, Infinity nb => Infinity nb
  | Num x, Num y => round64 (x + y)
  end.

(** [a - b] *)
Definition num_sub (a b : number) : number :=
  match a, b with
  | Num x, Num y => round64 (x - y)
  | _, _ => num_add a (num_neg b)
  end.

(** [a * b] *)
Definition num_mul (a b : number) : number :=
  match a, b with
  | NaN, _ | _, NaN => NaN
  | Infinity na, Infinity nb => Infinity (xorb na nb)
  | Infinity na, Num y =>
      if Qeq_bool y 0 then NaN else Infinity (xorb na (Qlt_bool y 0))
  | Num x, Infinity nb =>
      if Qeq_bool x 0 then NaN else Infinity (xorb (Qlt_bool x 0) nb)
  | Num x, Num y => round64 (x * y)
  end.

(** [Math.min(a, b)] *)
Definition Math_min (a b : number) : number :=
  match a, b with
  | NaN, _ | _, NaN => NaN
  | _, _ => if num_lt b a then b else a
  end.

Definition num_of_Z (z : Z) : number := Num (inject_Z z).

(** The literals of the source. *)
Definition zero : number := num_of_Z 0.
Definition one : number := num_of_Z 1.
Definition two : number := num_of_Z 2.
Definition half : number := Num (1 # 2).

Declare Scope num_scope.
Delimit Scope num_scope with num.
Bind Scope num_scope with number.
Infix "+" := num_add : num_scope.
Infix "-" := num_sub : num_scope.
Infix "*" := num_mul : num_scope.
Infix "<" := num_lt : num_scope.
Infix ">" := num_gt : num_scope.
Infix "<=" := num_le : num_scope.
Infix "!=" := num_neq (at level 70) : num_scope.

(** ** Rendering numbers in template strings

    [`${n}`] applies Number::toString.  NaN, the infinities and the integers
    below 2^53 in magnitude, which print all their digits, are rendered by
    [numberToString] itself; the other values, in lowest terms, are left to
    its parameter [fractionToString].  [shortestDecimal] below is
    Number::toString on those values. *)

Definition Z_to_string (z : Z) : string :=
  match z with
  | Z0 => "0"
  | Zpos p => DecimalString.NilZero.string_of_uint (Pos.to_uint p)
  | Zneg p => "-" ++ DecimalString.NilZero.string_of_uint (Pos.to_uint p)
  end.

(** An integer below 2^53 in magnitude, given in lowest terms. *)
Definition is_integer (q : Q) : bool :=
  (Zpos (Qden q) =? 1)%Z && (Z.abs (Qnum q) <? 2 ^ 53)%Z.

Definition numberToString (fractionToString : Q -> string) (n : number) : string :=
  match n with
  | NaN => "NaN"
  | Infinity false => "Infinity"
  | Infinity true => "-Infinity"
  | Num q =>
      if is_integer (Qred q) then Z_to_string (Qnum (Qred q))
      else fractionToString (Qred q)
  end.

(** *** Number::toString on a finite double

    The digits are the shortest decimal that converts back to the double,
    the nearest to it when several of that length do; they are laid out as
    ECMAScript prescribes: plain digits up to 10^21, a leading "0." down to
    10^-6, exponent notation beyond. *)

(** [10^t <= a / b] *)
Definition pow10_le (t a b : Z) : bool :=
  if (0 <=? t)%Z then (b * 10 ^ t <=? a)%Z else (b <=? a * 10 ^ (- t))%Z.

(** The [n] with [10^(n-1) <= a / b < 10^n], for positive [a] and [b]. *)
Definition decimalExponent (a b : Z) : Z :=
  let g := ((floorLog2 a b * 30103) / 100000)%Z in
  if pow10_le (g + 2) a b then (g + 3)%Z
  else if pow10_le (g + 1) a b then (g + 2)%Z
  else if pow10_le g a b then (g + 1)%Z
  else if pow10_le (g - 1) a b then g
  else (g - 1)%Z.

(** [s * 10^t] *)
Definition decimalValue (s t : Z) : Q :=
  if (0 <=? t)%Z then inject_Z (s * 10 ^ t) else Qmake s (Z.to_pos (10 ^ (- t))).

(** The decimal [s * 10^t] converts to the double [x]. *)
Definition roundTrips (x : Q) (s t : Z) : bool :=
  match round64 (decimalValue s t) with
  | Num y => Qeq_bool y x
  | _ => false
  end.

(** The [k]-digit candidates for [x = a / b]: the [k]-digit decimals just
    below and just above [x].  The one that converts back to [x] is kept: the
    nearer to [x] if both do, the even one on a tie. *)
Definition candidate (x : Q) (a b n k : Z) : option Z :=
  let t := (n - k)%Z in
  let (p, q) := if (0 <=? t)%Z then (a, (b * 10 ^ t)%Z) else ((a * 10 ^ (- t))%Z, b) in
  let lo := (p / q)%Z in
  let hi := (lo + 1)%Z in
  match roundTrips x lo t, roundTrips x hi t with
  | true, true =>
      match (2 * (p mod q) ?= q)%Z with
      | Lt => Some lo
      | Gt => Some hi
      | Eq => Some (if Z.even lo then lo else hi)
      end
  | true, false => Some lo
  | false, true => Some hi
  | false, false => None
  end.

(** The shortest digits: the candidate of the least [k], from [k] on; a
    double needs at most 17 digits. *)
Fixpoint shortestDigits (fuel : nat) (x : Q) (a b n k : Z) : Z * Z :=
  match fuel with
  | O => ((a * 10 ^ (17 - n) / b)%Z, 17%Z)
  | S fuel' =>
      match candidate x a b n k with
      | Some s => (s, k)
      | None => shortestDigits fuel' x a b n (k + 1)%Z
      end
  end.

Fixpoint stripZeros (fuel : nat) (s : Z) : Z :=
  match fuel with
  | O => s
  | S fuel' =>
      if ((s mod 10 =? 0) && negb (s =? 0))%Z then stripZeros fuel' (s / 10)%Z else s
  end.

Fixpoint zeros (n : nat) : string :=
  match n with
  | O => ""
  | S n' => "0" ++ zeros n'
  end.

(** The layout of a positive value [0.digits * 10^n]. *)
Definition formatDecimal (digits : string) (n : Z) : string :=
  let k := Z.of_nat (String.length digits) in
  if ((k <=? n) && (n <=? 21))%Z then
    digits ++ zeros (Z.to_nat (n - k))
  else if ((0 <? n) && (n <=? 21))%Z then
    substring 0 (Z.to_nat n) digits ++ "." ++
    substring (Z.to_nat n) (Z.to_nat (k - n)) digits
  else if ((-6 <? n) && (n <=? 0))%Z then
    "0." ++ zeros (Z.to_nat (- n)) ++ digits
  else
    let e := (n - 1)%Z in
    let exponent := (if (0 <=? e)%Z then "e+" else "e-") ++ Z_to_string (Z.abs e) in
    if (k =? 1)%Z then digits ++ exponent
    else substring 0 1 digits ++ "." ++
         substring 1 (Z.to_nat (k - 1)) digits ++ exponent.

Definition shortestPositive (a b : Z) : string :=
  let x := Qmake a (Z.to_pos b) in
  let n := decimalExponent a b in
  let (s, k) := shortestDigits 17 x a b n 1 in
  (* the candidate 10^k stands for the digit 1, one place higher *)
  let n' := if (s =? 10 ^ k)%Z then (n + 1)%Z else n in
  formatDecimal (Z_to_string (stripZeros 20 s)) n'.

Definition shortestDecimal (q : Q) : string :=
  match Qnum (Qred q) with
  | Z0 => "0"
  | Zpos n => shortestPositive (Zpos n) (Zpos (Qden (Qred q)))
  | Zneg n => "-" ++ shortestPositive (Zpos n) (Zpos (Qden (Qred q)))
  end.

(** Number::toString, whole: [numberToString] with [shortestDecimal] for the
    values it leaves to its parameter. *)
Definition Number_toString (n : number) : string :=
  numberToString shortestDecimal n.

(** Two numbers that are the same value: equal as numbers, or both NaN. *)
Definition sameValue (a b : number) : bool :=
  match a, b with
  | NaN, NaN => true
  | Infinity na, Infinity nb => Bool.eqb na nb
  | Num x, Num y => Qeq_bool x y
  | _, _ => false
  end.

(** Zero or above, plus infinity included; zero or below, minus infinity
    included. *)
Definition nonNegative (n : number) : Prop :=
  match n with
  | Num r => 0 <= r
  | Infinity negative => negative = false
  | NaN => False
  end.



(** ** Data model *)

(** const TARGET_VOICE_TO_TEXT_BITRATE = 22050 *)
Definition TARGET_VOICE_TO_TEXT_BITRATE : number := num_of_Z 22050.

(** [AudioSegmentSettings]; the fields marked [?] in the source are options,
    [None] standing for [undefined]. *)
Record AudioSegmentSettings : Type := {
  startSecs : number;
  endSecs : number;
  toMono : option bool;
  bitrateConversion : option number;
  playbackSpeed : option number
}.

(** The settings [processAudioFileInChunks] passes for each chunk:
    { startSecs, endSecs, toMono: true,
      bitrateConversion: TARGET_VOICE_TO_TEXT_BITRATE, playbackSpeed } *)
Definition chunkSettings (start endSecs speed : number) : AudioSegmentSettings :=
  {| startSecs := start; endSecs := endSecs;
     toMono := Some true;
     bitrateConversion := Some TARGET_VOICE_TO_TEXT_BITRATE;
     playbackSpeed := Some speed |}.

(** Settings that only choose a playback speed. *)
Definition settingsWithSpeed (speed : option number) : AudioSegmentSettings :=
  {| startSecs := zero; endSecs := one; toMono := None;
     bitrateConversion := None; playbackSpeed := speed |}.

(** Truthiness of an optional field: [undefined] is falsy. *)
Definition truthy_bool (b : option bool) : bool :=
  match b with Some true => true | _ => false end.

(** The fluent-ffmpeg command: the input file and the builder calls made on
    it, in the order the source makes them. *)
Inductive FfmpegOption : Type :=
| setStartTime (t : number)
| setDuration (d : number)
| noVideo
| audioChannels (n : number)
| audioBitrate (b : number)
| audioFilters (filter : string)
| output (target : string).

Record FfmpegCommand : Type := {
  input : string;
  options : list FfmpegOption
}.

(** The result of [ffprobe]: [metadata.format], whose fields may be absent. *)
Record FfprobeFormat : Type := {
  format_duration : option number;
  format_bit_rate : option number
}.

Record AudioFileInfo : Type := {
  duration : number;
  bit_rate : number
}.

(** [x ?? d] *)
Definition nullish {A : Type} (x : option A) (d : A) : A :=
  match x with Some v => v | None => d end.

Definition Error : Type := string.

(** ** The segment extractor, pure part *)

Section SegmentCommand.

Variable fractionToString : Q -> string.

(** const newPath = `${path}.segment-${settings.startSecs}-${settings.endSecs}.mp3` *)
Definition newPath (path : string) (settings : AudioSegmentSettings) : string :=
  path ++ ".segment-" ++ numberToString fractionToString (startSecs settings)
       ++ "-" ++ numberToString fractionToString (endSecs settings) ++ ".mp3".

(** const playbackSpeed = !settings.playbackSpeed ? 1
      : settings.playbackSpeed < 0.5 ? 0.5
      : settings.playbackSpeed > 2 ? 2 : settings.playbackSpeed *)
Definition effectivePlaybackSpeed (settings : AudioSegmentSettings) : number :=
  match playbackSpeed settings with
  | None => one
  | Some speed =>
      if negb (ToBoolean speed) then one
      else if (speed < half)%num then half
      else if (speed > two)%num then two
      else speed
  end.

(** The command as it stands when [cmd.run()] is called: the builder calls
    made on [ffmpeg(path)], in order. *)
Definition cmd (path : string) (settings : AudioSegmentSettings) : FfmpegCommand :=
  let opts := [ setStartTime (startSecs settings);
                setDuration (endSecs settings - startSecs settings)%num;
                noVideo ] in
  let opts := if truthy_bool (toMono settings)
              then (opts ++ [audioChannels one])%list else opts in
  let opts := match bitrateConversion settings with
              | Some bitrate =>
                  if ToBoolean bitrate then (opts ++ [audioBitrate bitrate])%list else opts
              | None => opts
              end in
  let speed := effectivePlaybackSpeed settings in
  let opts := if (speed != one)%num
              then (opts ++ [audioFilters
                               ("atempo=" ++ numberToString fractionToString speed)])%list
              else opts in
  {| input := path; options := (opts ++ [output (newPath path settings)])%list |}.

End SegmentCommand.

(** ** Promises, the outside world and the trace of calls

    An asynchronous computation is run to completion against a state made of
    the outside world and the trace of external calls made so far.  It either
    resolves, rejects, or is still pending when the fuel of the loop that
    drives it is exhausted. *)

Inductive Call : Type :=
| CallFfprobe (path : string)
| CallSegment (path : string) (settings : AudioSegmentSettings)
| CallHandler (path : string) (isTemporary : bool).

(** One call and whether it failed.  [CallSegment] is a call of
    [getAudioFileSegment], which runs one ffmpeg command. *)
Record Event : Type := {
  call : Call;
  failure : option Error
}.

Inductive Outcome (A : Type) : Type :=
| Resolved (a : A)
| Rejected (e : Error)
| Pending.

Arguments Resolved {A} a.
Arguments Rejected {A} e.
Arguments Pending {A}.

Section Program.

Variable fractionToString : Q -> string.

(** The outside world: file system, processes, whatever the handler touches. *)
Variable World : Type.

(** [ffmpeg.ffprobe(path, callback)]: the callback receives an error or the metadata. *)
Variable ffprobe : string -> World -> (Error + FfprobeFormat) * World.

(** [cmd.run()]: the command ends ('end') or fails ('error'); either way it
    may have written to the world. *)
Variable ffmpegRun : FfmpegCommand -> World -> option Error * World.

Record State : Type := {
  world : World;
  trace : list Event
}.

Definition Promise (A : Type) : Type := State -> Outcome A * State.

Definition resolve {A : Type} (a : A) : Promise A := fun st => (Resolved a, st).

(** [await p; k] *)
Definition await {A B : Type} (p : Promise A) (k : A -> Promise B) : Promise B :=
  fun st =>
    match p st with
    | (Resolved a, st') => k a st'
    | (Rejected e, st') => (Rejected e, st')
    | (Pending, st') => (Pending, st')
    end.

Definition record (c : Call) (f : option Error) (w : World) (st : State) : State :=
  {| world := w; trace := trace st ++ [{| call := c; failure := f |}] |}.

(** export function getAudioFileInfo(path) *)
Definition getAudioFileInfo (path : string) : Promise AudioFileInfo :=
  fun st =>
    match ffprobe path (world st) with
    | (inl err, w) => (Rejected err, record (CallFfprobe path) (Some err) w st)
    | (inr metadata, w) =>
        (Resolved {| duration := nullish (format_duration metadata) zero;
                     bit_rate := nullish (format_bit_rate metadata) zero |},
         record (CallFfprobe path) None w st)
    end.

(** export function getAudioFileSegment(path, settings): builds the command,
    runs it, resolves to [newPath] on 'end' and rejects on 'error'. *)
Definition getAudioFileSegment (path : string) (settings : AudioSegmentSettings)
  : Promise string :=
  fun st =>
    match ffmpegRun (cmd fractionToString path settings) (world st) with
    | (Some err, w) => (Rejected err, record (CallSegment path settings) (Some err) w st)
    | (None, w) =>
        (Resolved (newPath fractionToString path settings),
         record (CallSegment path settings) None w st)
    end.

(** The caller's handler, [fProcess]: it acts on the world and fulfils or rejects. *)
Definition Handler : Type := string -> bool -> World -> option Error * World.

Definition invoke (fProcess : Handler) (path : string) (isTemporary : bool)
  : Promise unit :=
  fun st =>
    match fProcess path isTemporary (world st) with
    | (Some err, w) => (Rejected err, record (CallHandler path isTemporary) (Some err) w st)
    | (None, w) => (Resolved tt, record (CallHandler path isTemporary) None w st)
    end.

(** The [while (startSecs < info.duration)] loop of [processAudioFileInChunks];
    [fuel] bounds the number of times the condition is evaluated. *)
Fixpoint chunkLoop (fuel : nat) (path : string) (chunkSecs overlapSecs speed : number)
    (fProcess : Handler) (info : AudioFileInfo) (start : number) : Promise unit :=
  match fuel with
  | O => fun st => (Pending, st)
  | S fuel' =>
      if (start < duration info)%num then
        let endSecs := Math_min (start + chunkSecs)%num (duration info) in
        await (getAudioFileSegment path (chunkSettings start endSecs speed))
          (fun chunkPath =>
             await (invoke fProcess chunkPath true)
               (fun _ =>
                  chunkLoop fuel' path chunkSecs overlapSecs speed fProcess info
                    (start + (chunkSecs - overlapSecs))%num))
      else resolve tt
  end.

(** export async function processAudioFileInChunks(path, chunkSecs, overlapSecs,
    playbackSpeed, fProcess) *)
Definition processAudioFileInChunks (fuel : nat) (path : string)
    (chunkSecs overlapSecs speed : number) (fProcess : Handler) : Promise unit :=
  await (getAudioFileInfo path)
    (fun info =>
       if (duration info <= chunkSecs + overlapSecs * two)%num then
         await (invoke fProcess path false) (fun _ => resolve tt)
       else
         chunkLoop fuel path chunkSecs overlapSecs speed fProcess info zero).

(** The world after making the given calls one after the other: what the
    oracles did to it, and nothing else. *)
Definition replayCall (fProcess : Handler) (c : Call) (w : World) : World :=
  match c with
  | CallFfprobe path => snd (ffprobe path w)
  | CallSegment path settings => snd (ffmpegRun (cmd fractionToString path settings) w)
  | CallHandler path isTemporary => snd (fProcess path isTemporary w)
  end.

Definition replay (fProcess : Handler) (calls : list Call) (w : World) : World :=
  fold_left (fun w c => replayCall fProcess c w) calls w.

End Program.

Arguments world {World} s.
Arguments trace {World} s.

(** ** Reading a trace *)

(** The handler invocations, in order: path and [isTemporary]. *)
Definition handlerCalls (tr : list Event) : list (string * bool) :=
  flat_map (fun ev => match call ev with
                      | CallHandler path isTemporary => [(path, isTemporary)]
                      | _ => []
                      end) tr.

Definition handlerCount (tr : list Event) : nat := List.length (handlerCalls tr).

(** The chunks extracted, in order: [startSecs] and [endSecs] of each
    [getAudioFileSegment] call. *)
Definition chunks (tr : list Event) : list (number * number) :=
  flat_map (fun ev => match call ev with
                      | CallSegment _ settings => [(startSecs settings, endSecs settings)]
                      | _ => []
                      end) tr.

Definition noFailure (tr : list Event) : Prop :=
  forall ev, In ev tr -> failure ev = None.

(** A run stops at its first failure: a rejected run ends with the one failing
    call, whose error it carries; any other run has no failing call. *)
Definition stopsAtFailure {A : Type} (out : Outcome A) (tr : list Event) : Prop :=
  match out with
  | Rejected err =>
      exists pre c, tr = (pre ++ [{| call := c; failure := Some err |}])%list
                    /\ noFailure pre
  | _ => noFailure tr
  end.

Definition isAudioFilter (o : FfmpegOption) : bool :=
  match o with audioFilters _ => true | _ => false end.

Definition isAudioBitrate (o : FfmpegOption) : bool :=
  match o with audioBitrate _ => true | _ => false end.

(** ** The microphone recorder

    [recordMicrophone] spawns the capture process and registers two
    listeners; what happens afterwards is driven by the events the process
    emits and by the caller invoking [fStop]. *)

Inductive PromiseState (A : Type) : Type :=
| StillPending
| Fulfilled (value : A)
| Failed (reason : Error).

Arguments StillPending {A}.
Arguments Fulfilled {A} value.
Arguments Failed {A} reason.

(** What can happen to a running recorder. *)
Inductive MicEvent : Type :=
| StderrData (data : string)          (* mic.stderr 'data' *)
| Close (code : option Z)             (* mic 'close'; the code is null after a signal *)
| StopCalled.                         (* the caller invokes fStop() *)

Record Recorder : Type := {
  completedPathPromise : PromiseState string;
  console : list string;       (* lines written by console.log *)
  spawned : list (string * list string);   (* processes started, with arguments *)
  kills : nat                  (* number of mic.kill() calls *)
}.

(** The [resolve] function of a promise: it settles a pending promise and
    does nothing to a settled one. *)
Definition pathResolve (path : string) (p : PromiseState string) : PromiseState string :=
  match p with
  | StillPending => Fulfilled path
  | settled => settled
  end.

Definition codeToString (code : option Z) : string :=
  match code with
  | Some c => Z_to_string c
  | None => "null"
  end.

Definition dquote : string := String (ascii_of_nat 34) EmptyString.

(** The two detached shell commands of [stopPlayingMusic]; the AppleScript
    that pauses YouTube is abbreviated to [pauseYouTube]. *)
Definition stopPlayingMusic : list (string * list string) :=
  [ ("bash", ["-c"; "pgrep -q " ++ dquote ++ "Google Chrome" ++ dquote
                    ++ " && osascript -e 'pauseYouTube'"]);
    ("bash", ["-c"; "pgrep -q " ++ dquote ++ "Spotify" ++ dquote
                    ++ " && osascript -e 'tell application " ++ dquote ++ "Spotify"
                    ++ dquote ++ " to pause'"]) ].

(** export function recordMicrophone(outPath): the state on return. *)
Definition recordMicrophone (outPath : string) : Recorder :=
  {| completedPathPromise := StillPending;
     console := [];
     spawned := (stopPlayingMusic ++
                 [("sox", ["-d"; "-t"; "mp3"; "-c"; "1"; "-r";
                           Z_to_string 22050; outPath])])%list;
     kills := 0 |}.

(** The listeners registered by [recordMicrophone], and [fStop]. *)
Definition micStep (outPath : string) (r : Recorder) (ev : MicEvent) : Recorder :=
  match ev with
  | StderrData data =>
      {| completedPathPromise := completedPathPromise r;
         console := (console r ++ [data])%list;
         spawned := spawned r;
         kills := kills r |}
  | Close code =>
      {| completedPathPromise := pathResolve outPath (completedPathPromise r);
         console := (console r ++
                     [String.append "mic exited with code " (codeToString code)])%list;
         spawned := spawned r;
         kills := kills r |}
  | StopCalled =>
      {| completedPathPromise := completedPathPromise r;
         console := console r;
         spawned := spawned r;
         kills := S (kills r) |}
  end.

Definition micRun (outPath : string) (evs : list MicEvent) : Recorder :=
  fold_left (micStep outPath) evs (recordMicrophone outPath).

Definition isClose (ev : MicEvent) : bool :=
  match ev with Close _ => true | _ => false end.

Definition isPending {A : Type} (p : PromiseState A) : bool :=
  match p with StillPending => true | _ => false end.

(** How many of the events [evs], applied in order to recorder [r], settle
    its promise (take it from pending to fulfilled or failed). *)
Fixpoint settlements (outPath : string) (r : Recorder) (evs : list MicEvent) : nat :=
  match evs with
  | [] => 0
  | ev :: rest =>
      let r' := micStep outPath r ev in
      ((if isPending (completedPathPromise r) && negb (isPending (completedPathPromise r'))
        then 1 else 0)
       + settlements outPath r' rest)%nat
  end.

(** ** A small concrete world, used to run the program on examples

    The world is the list of files on disk.  Probing succeeds on existing
    files, extraction adds its output file, and a handler fails on the
    paths it is told to fail on. *)

Definition Disk : Type := list string.

Definition onDisk (path : string) (d : Disk) : bool :=
  existsb (String.eqb path) d.

Definition diskProbe (D : number) (path : string) (d : Disk)
  : (Error + FfprobeFormat) * Disk :=
  if onDisk path d
  then (inr {| format_duration := Some D; format_bit_rate := None |}, d)
  else (inl "ENOENT", d).

Definition outputOf (c : FfmpegCommand) : list string :=
  flat_map (fun o => match o with output target => [target] | _ => [] end) (options c).

Definition diskFfmpeg (c : FfmpegCommand) (d : Disk) : option Error * Disk :=
  (None, (d ++ outputOf c)%list).

Definition diskHandler (failOn : list string) (path : string) (isTemporary : bool)
    (d : Disk) : option Error * Disk :=
  if existsb (String.eqb path) failOn then (Some "handler failed", d) else (None, d).

(** A probe whose metadata carries neither duration nor bit rate. *)
Definition bareProbe (path : string) (d : Disk) : (Error + FfprobeFormat) * Disk :=
  (inr {| format_duration := None; format_bit_rate := None |}, d).

(** The rendering of the examples: Number::toString. *)
Definition plainFraction (q : Q) : string := shortestDecimal q.

Definition freshState (d : Disk) : State Disk := {| world := d; trace := [] |}.

Definition runOnDisk (D : number) (fuel : nat) (path : string)
    (chunkSecs overlapSecs speed : number) (failOn : list string) (d : Disk)
  : Outcome unit * State Disk :=
  processAudioFileInChunks plainFraction Disk (diskProbe D) diskFfmpeg fuel path
    chunkSecs overlapSecs speed (diskHandler failOn) (freshState d).

(** ** Counting the turns of the loop *)

(** The number of times the body of the loop still runs when [startSecs] is
    [q], for a finite duration [d] and a step [chunkSecs - overlapSecs] of
    [step]: the least [n >= 0] with [q + n * step >= d]. *)
Definition turnsLeft (d step q : Q) : nat :=
  Z.to_nat (Qceiling ((d - q) / step)).

(** The chunks of the next [n] turns of the loop when [startSecs] is the
    whole number [q] and the chunks and overlaps are whole seconds: each is
    [startSecs, Math.min(startSecs + chunkSecs, duration)], and [startSecs]
    advances by [chunkSecs - overlapSecs]. *)
Fixpoint chunksFrom (n : nat) (c o : Z) (d : Q) (q : Z) : list (number * number) :=
  match n with
  | O => []
  | S n' =>
      (num_of_Z q, Math_min (num_of_Z q + num_of_Z c)%num (Num d))
        :: chunksFrom n' c o d (q + (c - o))%Z
  end.

(** ** More readings of a trace *)

(** The output path of every [getAudioFileSegment] call that succeeded, in
    order.  (A call that failed may have left a file behind as well; it is
    not listed.) *)
Definition extracted (fractionToString : Q -> string) (tr : list Event) : list string :=
  flat_map (fun ev => match call ev, failure ev with
                      | CallSegment path settings, None =>
                          [newPath fractionToString path settings]
                      | _, _ => []
                      end) tr.

(** The [getAudioFileSegment] calls, in order: input path and settings. *)
Definition segmentCalls (tr : list Event) : list (string * AudioSegmentSettings) :=
  flat_map (fun ev => match call ev with
                      | CallSegment path settings => [(path, settings)]
                      | _ => []
                      end) tr.

(** The calls of the chunking loop on [path]: an extraction that succeeded
    followed by the handler invocation on its output, flagged temporary, turn
    after turn; only the last call may have failed. *)
Fixpoint chunkCalls (fractionToString : Q -> string) (path : string) (speed : number)
    (tr : list Event) : Prop :=
  match tr with
  | [] => True
  | ev :: rest =>
      exists a b : number,
        call ev = CallSegment path (chunkSettings a b speed) /\
        match rest with
        | [] => failure ev <> None
        | h :: rest' =>
            failure ev = None /\
            call h = CallHandler
                       (newPath fractionToString path (chunkSettings a b speed)) true /\
            (failure h = None \/ rest' = []) /\
            chunkCalls fractionToString path speed rest'
        end
  end.

(** A chunk with finite bounds that lies inside a file of [d] seconds, is not
    empty and is at most [c] seconds long. *)
Definition chunkWithin (c d : Q) (chunk : number * number) : Prop :=
  match chunk with
  | (Num a, Num b) => 0 <= a /\ a < b /\ b <= d /\ b - a <= c
  | _ => False
  end.

(** The instant [t] lies in the chunk. *)
Definition inChunk (t : Q) (chunk : number * number) : Prop :=
  match chunk with
  | (Num a, Num b) => a <= t /\ t <= b
  | _ => False
  end.

Definition isAudioChannels (o : FfmpegOption) : bool :=
  match o with audioChannels _ => true | _ => false end.

(** ** The file player

    [playAudioFile] silences the other players, spawns [play] and hands the
    promise's [resolve] and [reject] to the process as its 'close' and
    'error' listeners. *)

Inductive PlayerEvent : Type :=
| PlayerClose (code : option Z)     (* player 'close' *)
| PlayerError (err : Error).        (* player 'error' *)

Record Player : Type := {
  playPromise : PromiseState (option Z);
  playSpawned : list (string * list string)
}.

(** The [resolve] and [reject] functions of a promise: the first call settles
    it, later calls do nothing. *)
Definition settle {A : Type} (outcome p : PromiseState A) : PromiseState A :=
  match p with
  | StillPending => outcome
  | settled => settled
  end.

(** export function playAudioFile(path): the state on return. *)
Definition playAudioFile (path : string) : Player :=
  {| playPromise := StillPending;
     playSpawned := (stopPlayingMusic ++ [("play", [path])])%list |}.

(** player.on('close', resolve); player.on('error', reject) *)
Definition playStep (p : Player) (ev : PlayerEvent) : Player :=
  match ev with
  | PlayerClose code =>
      {| playPromise := settle (Fulfilled code) (playPromise p);
         playSpawned := playSpawned p |}
  | PlayerError err =>
      {| playPromise := settle (Failed err) (playPromise p);
         playSpawned := playSpawned p |}
  end.

Definition playRun (path : string) (evs : list PlayerEvent) : Player :=
  fold_left playStep evs (playAudioFile path).

(** What one recorder event writes to the console. *)
Definition consoleLines (ev : MicEvent) : list string :=
  match ev with
  | StderrData data => [data]
  | Close code => [String.append "mic exited with code " (codeToString code)]
  | StopCalled => []
  end.

Definition isStop (ev : MicEvent) : bool :=
  match ev with StopCalled => true | _ => false end.

(** Chunk number [i] (from 0) of a file of [d] seconds: it starts at
    [i * (c - o)] and ends [c] later, or at [d] if that comes first. *)
Definition chunkAtTurn (c o d : Q) (i : nat) (chunk : number * number) : Prop :=
  match chunk with
  | (Num a, Num b) =>
      a == inject_Z (Z.of_nat i) * (c - o) /\
      (a + c <= d -> b == a + c) /\
      (d <= a + c -> b == d)
  | _ => False
  end.

(** The characters "0" to "9". *)
Definition isDigit (a : ascii) : bool :=
  (48 <=? nat_of_ascii a)%nat && (nat_of_ascii a <=? 57)%nat.

Fixpoint digitsOnly (s : string) : bool :=
  match s with
  | EmptyString => true
  | String a rest => isDigit a && digitsOnly rest
  end.

(** * Properties *)

(** ** Comparisons *)

Lemma Qlt_bool_iff (x y : Q) : Qlt_bool x y = true <-> x < y.
Proof.
  unfold Qlt_bool. rewrite negb_true_iff, <- not_true_iff_false, Qle_bool_iff.
  split; intro H; [apply Qnot_le_lt | apply Qlt_not_le]; exact H.
Qed.

Lemma Qlt_bool_false_iff (x y : Q) : Qlt_bool x y = false <-> y <= x.
Proof.
  unfold Qlt_bool. rewrite negb_false_iff. apply Qle_bool_iff.
Qed.

(** A number is falsy exactly when it is NaN or zero. *)
Lemma ToBoolean_false_iff (v : number) :
  ToBoolean v = false <-> v = NaN \/ exists q, v = Num q /\ q == 0.
Proof.
  destruct v as [| n | q]; simpl.
  - split; [intros _; now left | reflexivity].
  - split; [discriminate | intros [H | (q & H & _)]; discriminate].
  - rewrite negb_false_iff, Qeq_bool_iff. split.
    + intro H. right. exists q. split; [reflexivity | exact H].
    + intros [H | (q' & H & H0)]; [discriminate | now injection H as ->].
Qed.

(** ** Rounding to binary64 *)

(** Equal rationals round to the same double. *)
Lemma round64_comp (p q : Q) : p == q -> round64 p = round64 q.
Proof.
  intro H. unfold round64. rewrite (Qred_complete p q H). reflexivity.
Qed.

(** Dividing by 1 rounds nothing. *)
Lemma roundHalfEven_whole (a : Z) : roundHalfEven a 1 = a.
Proof.
  unfold roundHalfEven. rewrite Z.mod_1_r, Z.div_1_r. reflexivity.
Qed.

Lemma roundHalfEven_nonneg (a b : Z) : (0 <= a)%Z -> (0 < b)%Z -> (0 <= roundHalfEven a b)%Z.
Proof.
  intros Ha Hb. unfold roundHalfEven.
  pose proof (Z.div_pos a b Ha Hb).
  destruct (2 * (a mod b) ?= b)%Z; [destruct (Z.even (a / b)) | |]; lia.
Qed.

Lemma Qred_whole (n : Z) : Qred (inject_Z n) = inject_Z n.
Proof.
  apply Qcanon.Qred_identity. cbn. apply Z.gcd_1_r.
Qed.

Lemma floorLog2_whole (a : Z) : (0 < a)%Z -> floorLog2 a 1 = Z.log2 a.
Proof.
  intro Hpos. unfold floorLog2.
  change (Z.log2 1) with 0%Z. rewrite Z.sub_0_r.
  pose proof (Z.log2_nonneg a) as He0.
  pose proof (Z.log2_spec a Hpos) as [Hlo _].
  unfold scale2.
  destruct (Z.leb_spec 0 (Z.log2 a)) as [_ | ?]; [| lia].
  rewrite Z.mul_1_l.
  destruct (Z.leb_spec (2 ^ Z.log2 a) a) as [_ | ?]; [reflexivity | lia].
Qed.

Lemma roundPositive_whole (a : Z) :
  (0 < a < 2 ^ 53)%Z -> roundPositive a 1 = Num (inject_Z a).
Proof.
  intros [Hpos Hlt]. unfold roundPositive. rewrite (floorLog2_whole a Hpos).
  pose proof (Z.log2_nonneg a) as He0.
  assert (He : (Z.log2 a < 53)%Z) by (apply Z.log2_lt_pow2; assumption).
  rewrite Z.max_l by lia.
  set (k := (Z.log2 a - 52)%Z).
  assert (Hk : (-52 <= k <= 0)%Z) by (unfold k; lia).
  destruct (Z.ltb_spec 971 k) as [? | _]; [lia |].
  destruct (Z.eqb_spec k 971) as [? | _]; [lia |].
  cbn [orb andb].
  unfold scale2.
  destruct (Z.leb_spec 0 k) as [Hk0 | Hk0].
  - assert (k = 0%Z) as -> by lia.
    rewrite Z.mul_1_l, Z.pow_0_r, roundHalfEven_whole, Z.mul_1_r.
    now rewrite Qred_whole.
  - rewrite roundHalfEven_whole. f_equal.
    rewrite <- (Qred_whole a). apply Qred_complete.
    assert (Hp : (0 < 2 ^ (- k))%Z) by (apply Z.pow_pos_nonneg; lia).
    unfold Qeq. cbn [Qnum Qden inject_Z]. rewrite Z2Pos.id by exact Hp. lia.
Qed.

(** Whole numbers below 2^53 in magnitude are doubles: rounding leaves them
    as they are. *)
Lemma round64_whole (n : Z) :
  (Z.abs n < 2 ^ 53)%Z -> round64 (inject_Z n) = Num (inject_Z n).
Proof.
  intro Hn. unfold round64. rewrite Qred_whole. cbn [inject_Z Qnum Qden].
  destruct n as [| p | p].
  - reflexivity.
  - apply roundPositive_whole. lia.
  - rewrite roundPositive_whole by lia. reflexivity.
Qed.

Lemma scale2_positive (a b k : Z) :
  (0 < a)%Z -> (0 < b)%Z -> (0 < fst (scale2 a b k) /\ 0 < snd (scale2 a b k))%Z.
Proof.
  intros Ha Hb. unfold scale2. destruct (Z.leb_spec 0 k); cbn [fst snd].
  - split; [exact Ha |]. apply Z.mul_pos_pos; [exact Hb | apply Z.pow_pos_nonneg; lia].
  - split; [| exact Hb]. apply Z.mul_pos_pos; [exact Ha | apply Z.pow_pos_nonneg; lia].
Qed.

Lemma roundPositive_nonNegative (a b : Z) :
  (0 < a)%Z -> (0 < b)%Z -> nonNegative (roundPositive a b).
Proof.
  intros Ha Hb. unfold roundPositive.
  set (k := Z.max (floorLog2 a b - 52) (-1074)).
  destruct (scale2_positive a b k Ha Hb) as [Hx Hy].
  destruct (scale2 a b k) as [x y]. cbn [fst snd] in Hx, Hy.
  pose proof (roundHalfEven_nonneg x y ltac:(lia) Hy) as Hm.
  destruct (_ || _); [reflexivity |].
  cbn [nonNegative]. rewrite Qred_correct.
  destruct (Z.leb_spec 0 k).
  - change 0 with (inject_Z 0). rewrite <- Zle_Qle.
    apply Z.mul_nonneg_nonneg; [exact Hm | apply Z.pow_nonneg; lia].
  - unfold Qle. cbn. lia.
Qed.

(** Rounding keeps the sign. *)
Lemma round64_nonNegative (q : Q) : 0 <= q -> nonNegative (round64 q).
Proof.
  intro Hq. unfold round64.
  assert (Hr : 0 <= Qred q) by (now rewrite Qred_correct).
  destruct (Qred q) as [n d]. cbn [Qnum Qden].
  destruct n as [| p | p].
  - cbn. lra.
  - apply roundPositive_nonNegative; reflexivity.
  - exfalso. unfold Qle in Hr. cbn in Hr. lia.
Qed.



(** Sums, differences and doubles of whole numbers are exact as long as the
    result stays below 2^53 in magnitude. *)
Lemma num_add_whole (x y : Z) :
  (Z.abs (x + y) < 2 ^ 53)%Z -> (num_of_Z x + num_of_Z y)%num = num_of_Z (x + y).
Proof.
  intro H. unfold num_of_Z. cbn [num_add].
  rewrite (round64_comp _ (inject_Z (x + y))) by (now rewrite inject_Z_plus).
  now apply round64_whole.
Qed.

Lemma num_sub_whole (x y : Z) :
  (Z.abs (x - y) < 2 ^ 53)%Z -> (num_of_Z x - num_of_Z y)%num = num_of_Z (x - y).
Proof.
  intro H. unfold num_of_Z. cbn [num_sub].
  rewrite (round64_comp _ (inject_Z (x - y)))
    by (unfold Z.sub, Qminus; now rewrite inject_Z_plus, inject_Z_opp).
  now apply round64_whole.
Qed.

Lemma num_mul_whole (x y : Z) :
  (Z.abs (x * y) < 2 ^ 53)%Z -> (num_of_Z x * num_of_Z y)%num = num_of_Z (x * y).
Proof.
  intro H. unfold num_of_Z. cbn [num_mul].
  rewrite (round64_comp _ (inject_Z (x * y))) by (now rewrite inject_Z_mult).
  now apply round64_whole.
Qed.

Lemma num_add_nonNegative (a b : number) :
  nonNegative a -> nonNegative b -> nonNegative (a + b)%num.
Proof.
  destruct a as [| na | x], b as [| nb | y]; cbn; try tauto.
  - intros -> ->. reflexivity.
  - intros Hx Hy. apply round64_nonNegative. lra.
Qed.


(** *** The doubles *)

Lemma two_not_0 : ~ 2 == 0.
Proof. intro H. discriminate H. Qed.

Lemma dyadic_power (m k : Z) : dyadic m k == inject_Z m * 2 ^ k.
Proof.
  unfold dyadic. destruct (Z.leb_spec 0 k) as [Hk | Hk].
  - rewrite inject_Z_mult, Zpower_Qpower by exact Hk. reflexivity.
  - assert (Hp : (0 < 2 ^ (- k))%Z) by (apply Z.pow_pos_nonneg; lia).
    rewrite (Qmake_Qdiv m), Z2Pos.id by exact Hp.
    rewrite Zpower_Qpower by lia. rewrite Qpower_opp. unfold Qdiv.
    rewrite Qinv_involutive. reflexivity.
Qed.

Lemma scale2_power (a b k : Z) :
  inject_Z (fst (scale2 a b k)) * inject_Z b * 2 ^ k
    == inject_Z a * inject_Z (snd (scale2 a b k)).
Proof.
  unfold scale2. destruct (Z.leb_spec 0 k) as [Hk | Hk]; cbn [fst snd].
  - rewrite inject_Z_mult, Zpower_Qpower by exact Hk.
    change (inject_Z 2) with 2. generalize (2 ^ k). intro p. ring.
  - rewrite inject_Z_mult, Zpower_Qpower by lia.
    rewrite Qpower_opp.
    assert (H : ~ (inject_Z 2) ^ k == 0) by (apply Qpower_not_0, two_not_0).
    change (inject_Z 2) with 2 in *. revert H. generalize (2 ^ k). intros p H.
    field. exact H.
Qed.

Lemma pow2_pos (k : Z) : 0 < 2 ^ k.
Proof. apply Qpower_0_lt. reflexivity. Qed.

Lemma pow2_add (j k : Z) : 2 ^ (j + k) == 2 ^ j * 2 ^ k.
Proof. apply Qpower_plus, two_not_0. Qed.

Lemma pow2_log2 (a : Z) :
  (0 < a)%Z -> 2 ^ Z.log2 a <= inject_Z a /\ inject_Z a < 2 ^ (Z.log2 a + 1).
Proof.
  intro Ha. pose proof (Z.log2_spec a Ha) as [Hlo Hhi].
  pose proof (Z.log2_nonneg a) as H0.
  change 2 with (inject_Z 2). rewrite <- !Zpower_Qpower by lia.
  rewrite <- Zle_Qle, <- Zlt_Qlt. replace (Z.log2 a + 1)%Z with (Z.succ (Z.log2 a)) by lia.
  split; assumption.
Qed.

(** [a / b < 2^(floorLog2 a b + 1)] *)
Lemma floorLog2_above (a b : Z) :
  (0 < a)%Z -> (0 < b)%Z -> inject_Z a < inject_Z b * 2 ^ (floorLog2 a b + 1).
Proof.
  intros Ha Hb. unfold floorLog2.
  set (e := (Z.log2 a - Z.log2 b)%Z).
  pose proof (scale2_power a b e) as Hs.
  destruct (scale2_positive a b e Ha Hb) as [Hx Hy].
  destruct (scale2 a b e) as [x y]. cbn [fst snd] in Hs, Hx, Hy.
  destruct (Z.leb_spec y x) as [Hyx | Hyx].
  - destruct (pow2_log2 a Ha) as [_ Hhi]. destruct (pow2_log2 b Hb) as [Hlo _].
    replace (Z.log2 a + 1)%Z with (Z.log2 b + (e + 1))%Z in Hhi by (unfold e; lia).
    rewrite pow2_add in Hhi.
    pose proof (pow2_pos (e + 1)) as Hp. pose proof (pow2_pos (Z.log2 b)) as Hq.
    revert Hhi Hlo Hp Hq. generalize (2 ^ (e + 1)) (2 ^ Z.log2 b). intros p q Hhi Hlo Hp Hq.
    eapply Qlt_le_trans; [exact Hhi |].
    apply Qmult_le_compat_r; [exact Hlo | lra].
  - replace (e - 1 + 1)%Z with e by lia.
    pose proof (pow2_pos e) as Hp.
    assert (Hb' : 0 < inject_Z b) by (change 0 with (inject_Z 0); now rewrite <- Zlt_Qlt).
    assert (Hy' : 0 < inject_Z y) by (change 0 with (inject_Z 0); now rewrite <- Zlt_Qlt).
    assert (Hxy : inject_Z x < inject_Z y) by (now rewrite <- Zlt_Qlt).
    revert Hs Hp. generalize (2 ^ e). intros p Hs Hp.
    apply (Qmult_lt_r _ _ (inject_Z y) Hy').
    rewrite <- Hs.
    setoid_replace (inject_Z b * p * inject_Z y) with (inject_Z y * (inject_Z b * p)) by ring.
    setoid_replace (inject_Z x * inject_Z b * p) with (inject_Z x * (inject_Z b * p)) by ring.
    apply Qmult_lt_compat_r; [| exact Hxy].
    apply Qmult_lt_0_compat; assumption.
Qed.

(** [2^(floorLog2 a b) <= a / b] *)
Lemma floorLog2_below (a b : Z) :
  (0 < a)%Z -> (0 < b)%Z -> inject_Z b * 2 ^ floorLog2 a b <= inject_Z a.
Proof.
  intros Ha Hb. unfold floorLog2.
  set (e := (Z.log2 a - Z.log2 b)%Z).
  pose proof (scale2_power a b e) as Hs.
  destruct (scale2_positive a b e Ha Hb) as [Hx Hy].
  destruct (scale2 a b e) as [x y]. cbn [fst snd] in Hs, Hx, Hy.
  destruct (Z.leb_spec y x) as [Hyx | Hyx].
  - pose proof (pow2_pos e) as Hp.
    assert (Hb' : 0 < inject_Z b) by (change 0 with (inject_Z 0); now rewrite <- Zlt_Qlt).
    assert (Hy' : 0 < inject_Z y) by (change 0 with (inject_Z 0); now rewrite <- Zlt_Qlt).
    assert (Hxy : inject_Z y <= inject_Z x) by (now rewrite <- Zle_Qle).
    revert Hs Hp. generalize (2 ^ e). intros p Hs Hp.
    apply (Qmult_le_r _ _ (inject_Z y) Hy').
    rewrite <- Hs.
    setoid_replace (inject_Z b * p * inject_Z y) with (inject_Z y * (inject_Z b * p)) by ring.
    setoid_replace (inject_Z x * inject_Z b * p) with (inject_Z x * (inject_Z b * p)) by ring.
    apply Qmult_le_compat_r; [exact Hxy |].
    apply Qlt_le_weak, Qmult_lt_0_compat; assumption.
  - destruct (pow2_log2 a Ha) as [Hlo _]. destruct (pow2_log2 b Hb) as [_ Hhi].
    replace (Z.log2 a) with (Z.log2 b + 1 + (e - 1))%Z in Hlo by (unfold e; lia).
    rewrite pow2_add in Hlo.
    pose proof (pow2_pos (e - 1)) as Hp. pose proof (pow2_pos (Z.log2 b + 1)) as Hq.
    revert Hhi Hlo Hp Hq. generalize (2 ^ (e - 1)) (2 ^ (Z.log2 b + 1)).
    intros p q Hhi Hlo Hp Hq.
    eapply Qle_trans; [| exact Hlo].
    apply Qmult_le_compat_r; [apply Qlt_le_weak; exact Hhi | lra].
Qed.

Lemma roundHalfEven_multiple (y t : Z) : (0 < y)%Z -> roundHalfEven (y * t) y = t.
Proof.
  intro Hy. unfold roundHalfEven.
  rewrite (Z.mul_comm y t), Z.mod_mul, Z.div_mul by lia.
  cbn. destruct y; try lia; reflexivity.
Qed.

Lemma inject_Z_pos (z : Z) : (0 < z)%Z -> 0 < inject_Z z.
Proof. intro H. change 0 with (inject_Z 0). now rewrite <- Zlt_Qlt. Qed.

(** A positive double is its own rounding. *)
Lemma roundPositive_exact (a b m k : Z) :
  (0 < a)%Z -> (0 < b)%Z -> (0 < m < 2 ^ 53)%Z -> (-1074 <= k <= 971)%Z ->
  inject_Z a == inject_Z b * (inject_Z m * 2 ^ k) ->
  roundPositive a b = Num (Qred (dyadic m k)).
Proof.
  intros Ha Hb [Hm Hm53] [Hk0 Hk1] Hab.
  pose proof (floorLog2_below a b Ha Hb) as Hlow.
  pose proof (inject_Z_pos b Hb) as Hb'.
  unfold roundPositive.
  set (e := floorLog2 a b) in *.
  assert (He : (e - 52 <= k)%Z).
  { destruct (Z.le_gt_cases (e - 52) k) as [H | H]; [exact H | exfalso].
    assert (H1 : 2 ^ (53 + k) <= 2 ^ e) by (apply Qpower_le_compat_l; [lia | lra]).
    rewrite pow2_add in H1.
    assert (H2 : inject_Z m < 2 ^ 53).
    { change 2 with (inject_Z 2). rewrite <- Zpower_Qpower by lia. now rewrite <- Zlt_Qlt. }
    rewrite Hab in Hlow.
    pose proof (pow2_pos k) as Hp.
    revert Hlow H1 H2 Hp. generalize (2 ^ e) (2 ^ k) (2 ^ 53) (inject_Z m) (inject_Z b) Hb'.
    intros pe pk p53 qm qb Hqb Hlow H1 H2 Hp.
    assert (H3 : pe <= qm * pk).
    { apply (Qmult_le_l _ _ qb Hqb). exact Hlow. }
    assert (H4 : qm * pk < p53 * pk) by (apply Qmult_lt_compat_r; assumption).
    lra. }
  set (K := Z.max (e - 52) (-1074)).
  assert (HK : (-1074 <= K <= k)%Z) by (unfold K; lia).
  pose proof (scale2_power a b K) as Hs.
  destruct (scale2_positive a b K Ha Hb) as [Hx Hy].
  destruct (scale2 a b K) as [x y]. cbn [fst snd] in Hs, Hx, Hy.
  set (M := (m * 2 ^ (k - K))%Z).
  assert (Hx' : x = (y * M)%Z).
  { apply inject_Z_injective. rewrite inject_Z_mult. unfold M.
    rewrite inject_Z_mult, Zpower_Qpower by lia. change (inject_Z 2) with 2.
    rewrite Hab in Hs.
    replace k with ((k - K) + K)%Z in Hs at 1 by lia. rewrite pow2_add in Hs.
    pose proof (pow2_pos K) as Hp.
    revert Hs Hp. generalize (2 ^ (k - K)) (2 ^ K) (inject_Z m) (inject_Z b) Hb'.
    intros pj pK qm qb Hqb Hs Hp.
    assert (Hnz : ~ qb * pK == 0).
    { intro H. assert (0 < qb * pK) by (apply Qmult_lt_0_compat; assumption). lra. }
    apply (Qmult_inj_r _ _ (qb * pK) Hnz).
    setoid_replace (inject_Z x * (qb * pK)) with (inject_Z x * qb * pK) by ring.
    rewrite Hs. ring. }
  subst x. rewrite roundHalfEven_multiple by exact Hy.
  assert (Hover : (971 <? K)%Z || ((K =? 971)%Z && (2 ^ 53 <=? M)%Z) = false).
  { destruct (Z.ltb_spec 971 K) as [? | _]; [lia |].
    destruct (Z.eqb_spec K 971) as [HK971 | _]; [| reflexivity].
    cbn [orb andb]. assert (k = K) as <- by lia. unfold M.
    rewrite Z.sub_diag, Z.mul_1_r. apply Z.leb_gt. exact Hm53. }
  rewrite Hover. f_equal. apply Qred_complete.
  change (dyadic M K == dyadic m k). rewrite !dyadic_power. unfold M.
  rewrite inject_Z_mult, Zpower_Qpower by lia. change (inject_Z 2) with 2.
  replace k with ((k - K) + K)%Z at 2 by lia. rewrite pow2_add. ring.
Qed.

(** From [2^1024] on, rounding gives infinity. *)
Lemma roundPositive_overflow (a b : Z) :
  (0 < a)%Z -> (0 < b)%Z -> inject_Z b * 2 ^ 1024 <= inject_Z a ->
  roundPositive a b = Infinity false.
Proof.
  intros Ha Hb Hbig.
  pose proof (floorLog2_above a b Ha Hb) as Habove.
  pose proof (inject_Z_pos b Hb) as Hb'.
  unfold roundPositive.
  set (e := floorLog2 a b) in *.
  assert (He : (1024 < e + 1)%Z).
  { apply (Qpower_lt_compat_l_inv 2); [| reflexivity].
    revert Hbig Habove. generalize (2 ^ 1024) (2 ^ (e + 1)) (inject_Z a) (inject_Z b) Hb'.
    intros p q qa qb Hqb Hbig Habove.
    apply (Qmult_lt_l _ _ qb Hqb). lra. }
  set (K := Z.max (e - 52) (-1074)).
  destruct (scale2 a b K) as [x y].
  destruct (Z.ltb_spec 971 K) as [_ | HK]; [reflexivity | unfold K in HK; lia].
Qed.

Lemma dyadic_sign (m k : Z) : (0 < m)%Z <-> 0 < dyadic m k.
Proof.
  rewrite dyadic_power. pose proof (pow2_pos k) as Hp.
  split; intro H.
  - apply Qmult_lt_0_compat; [now apply inject_Z_pos | exact Hp].
  - destruct (Z.lt_ge_cases 0 m) as [? | Hle]; [assumption | exfalso].
    assert (Hm : inject_Z m <= 0) by (change 0 with (inject_Z 0); now rewrite <- Zle_Qle).
    revert H Hp. generalize (2 ^ k) (inject_Z m) Hm. intros p qm Hqm H Hp. nra.
Qed.

Lemma dyadic_opp (m k : Z) : dyadic (- m) k == - dyadic m k.
Proof. rewrite !dyadic_power, inject_Z_opp. ring. Qed.

Lemma Qmake_times (n : Z) (d : positive) : inject_Z n == inject_Z (Zpos d) * (n # d).
Proof. rewrite (Qmake_Qdiv n d). field. intro H. discriminate H. Qed.

(** Rounding leaves a double as it is. *)
Lemma round64_double (q : Q) : isDouble q -> exists r, round64 q = Num r /\ r == q.
Proof.
  intros (m & k & Hm & Hk & Hq). unfold round64.
  pose proof (Qred_correct q) as Hred.
  destruct (Qred q) as [n d]. cbn [Qnum Qden].
  destruct n as [| p | p].
  - exists 0. split; [reflexivity |]. rewrite <- Hred. reflexivity.
  - assert (Hpos : (0 < m)%Z).
    { apply (dyadic_sign m k). rewrite <- Hq, <- Hred. reflexivity. }
    exists (Qred (dyadic m k)). split.
    + apply roundPositive_exact; [reflexivity | reflexivity | lia | exact Hk |].
      rewrite <- dyadic_power, <- Hq, <- Hred. apply Qmake_times.
    + rewrite Qred_correct. symmetry. exact Hq.
  - assert (Hneg : (0 < - m)%Z).
    { apply (dyadic_sign (- m) k). rewrite dyadic_opp, <- Hq, <- Hred. reflexivity. }
    exists (- Qred (dyadic (- m) k)). split.
    + rewrite (roundPositive_exact (Zpos p) (Zpos d) (- m) k);
        [reflexivity | reflexivity | reflexivity | lia | exact Hk |].
      rewrite <- dyadic_power, dyadic_opp, <- Hq, <- Hred.
      rewrite (Qmake_times (Zpos p) d). unfold Qopp. cbn [Qnum Qden Z.opp]. reflexivity.
    + rewrite Qred_correct, dyadic_opp, <- Hq. ring.
Qed.

Lemma round64_overflow (q : Q) : 2 ^ 1024 <= q -> round64 q = Infinity false.
Proof.
  intro Hbig. unfold round64.
  pose proof (Qred_correct q) as Hred.
  pose proof (pow2_pos 1024) as Hp.
  destruct (Qred q) as [n d]. cbn [Qnum Qden].
  rewrite <- Hred in Hbig.
  destruct n as [| p | p].
  - exfalso. revert Hbig Hp. generalize (2 ^ 1024). intros t Hbig Hp.
    assert (0 # d == 0) by reflexivity. lra.
  - apply roundPositive_overflow; [reflexivity | reflexivity |].
    rewrite (Qmake_times (Zpos p) d).
    apply Qmult_le_l; [reflexivity | exact Hbig].
  - exfalso. revert Hbig Hp. generalize (2 ^ 1024). intros t Hbig Hp.
    assert (Z.neg p # d < 0) by reflexivity. lra.
Qed.

Lemma round64_underflow (q : Q) : q <= - 2 ^ 1024 -> round64 q = Infinity true.
Proof.
  intro Hbig. unfold round64.
  pose proof (Qred_correct q) as Hred.
  pose proof (pow2_pos 1024) as Hp.
  destruct (Qred q) as [n d]. cbn [Qnum Qden].
  rewrite <- Hred in Hbig.
  destruct n as [| p | p].
  - exfalso. revert Hbig Hp. generalize (2 ^ 1024). intros t Hbig Hp.
    assert (0 # d == 0) by reflexivity. lra.
  - exfalso. revert Hbig Hp. generalize (2 ^ 1024). intros t Hbig Hp.
    assert (0 < Z.pos p # d) by reflexivity. lra.
  - rewrite roundPositive_overflow; [reflexivity | reflexivity | reflexivity |].
    rewrite (Qmake_times (Zpos p) d).
    apply Qmult_le_l; [reflexivity |].
    assert (H : Z.neg p # d == - (Z.pos p # d)) by reflexivity.
    revert Hbig Hp. generalize (2 ^ 1024). intros t Hbig Hp. lra.
Qed.

Lemma inject_Z_pow2 (n : Z) : (0 <= n)%Z -> inject_Z (2 ^ n) == 2 ^ n.
Proof. intro H. now rewrite Zpower_Qpower. Qed.

(** Doubles lie strictly between [-2^1024] and [2^1024]. *)
Lemma double_bounded (q : Q) : isDouble q -> q < 2 ^ 1024.
Proof.
  intros (m & k & Hm & [_ Hk] & ->). rewrite dyadic_power.
  pose proof (pow2_pos k) as Hp.
  assert (Hk' : 2 ^ k <= 2 ^ 971) by (apply Qpower_le_compat_l; [exact Hk | lra]).
  assert (Hm' : inject_Z m < 2 ^ 53).
  { rewrite <- inject_Z_pow2 by lia. rewrite <- Zlt_Qlt. lia. }
  replace 1024%Z with (53 + 971)%Z by reflexivity. rewrite pow2_add.
  pose proof (pow2_pos 53) as Hp53.
  revert Hp Hk' Hm' Hp53. generalize (2 ^ k) (2 ^ 971) (2 ^ 53) (inject_Z m).
  intros pk p971 p53 qm Hp Hk' Hm' Hp53.
  destruct (Qlt_le_dec 0 qm) as [Hpos | Hneg].
  - apply Qle_lt_trans with (qm * p971).
    + apply Qmult_le_l; assumption.
    + apply Qmult_lt_compat_r; [lra | exact Hm'].
  - apply Qle_lt_trans with 0; [nra |]. apply Qmult_lt_0_compat; lra.
Qed.

(** Twice a double is a double, unless it overflows. *)
Lemma double_twice (q : Q) :
  isDouble q -> isDouble (q * 2) \/ 2 ^ 1024 <= q * 2 \/ q * 2 <= - 2 ^ 1024.
Proof.
  intros (m & k & Hm & [Hk0 Hk1] & Hq).
  rewrite dyadic_power in Hq.
  destruct (Z.lt_ge_cases k 971) as [Hk | Hk].
  - left. exists m, (k + 1)%Z. split; [exact Hm | split; [lia |]].
    rewrite dyadic_power, pow2_add, Hq. change (2 ^ 1) with 2. ring.
  - assert (k = 971%Z) as -> by lia.
    destruct (Z.lt_ge_cases (Z.abs m) (2 ^ 52)) as [Hsmall | Hlarge].
    + left. exists (2 * m)%Z, 971%Z. split; [| split; [lia |]].
      * change (2 ^ 53)%Z with (2 * 2 ^ 52)%Z. lia.
      * rewrite dyadic_power, inject_Z_mult, Hq. change (inject_Z 2) with 2. ring.
    + right. replace 1024%Z with (52 + (971 + 1))%Z by reflexivity.
      rewrite !pow2_add, Hq. change (2 ^ 1) with 2.
      pose proof (pow2_pos 971) as Hp.
      destruct (Z.le_ge_cases 0 m) as [Hpos | Hneg].
      * left. assert (Hm' : 2 ^ 52 <= inject_Z m).
        { rewrite <- inject_Z_pow2 by lia. rewrite <- Zle_Qle. lia. }
        revert Hp Hm'. generalize (2 ^ 971) (2 ^ 52) (inject_Z m). intros p971 p52 qm Hp Hm'.
        setoid_replace (qm * p971 * 2) with (qm * (p971 * 2)) by ring.
        apply Qmult_le_compat_r; [exact Hm' | lra].
      * right. assert (Hm' : inject_Z m <= - 2 ^ 52).
        { rewrite <- inject_Z_pow2 by lia. rewrite <- inject_Z_opp, <- Zle_Qle. lia. }
        revert Hp Hm'. generalize (2 ^ 971) (2 ^ 52) (inject_Z m). intros p971 p52 qm Hp Hm'.
        setoid_replace (qm * p971 * 2) with (qm * (p971 * 2)) by ring.
        setoid_replace (- (p52 * (p971 * 2))) with ((- p52) * (p971 * 2)) by ring.
        apply Qmult_le_compat_r; [exact Hm' | lra].
Qed.

Lemma roundHalfEven_below (x y n : Z) :
  (0 < y)%Z -> (x < y * n)%Z -> (roundHalfEven x y <= n)%Z.
Proof.
  intros Hy Hx. unfold roundHalfEven.
  pose proof (Z.div_lt_upper_bound x y n Hy Hx) as Hf.
  destruct (2 * (x mod y) ?= y)%Z; [destruct (Z.even (x / y)) | |]; lia.
Qed.

Lemma isDouble_opp (q : Q) : isDouble q -> isDouble (- q).
Proof.
  intros (m & k & Hm & Hk & Hq). exists (- m)%Z, k.
  split; [lia | split; [exact Hk |]]. now rewrite dyadic_opp, Hq.
Qed.

(** What rounding returns, when finite, is a double. *)
Lemma roundPositive_is_double (a b : Z) (r : Q) :
  (0 < a)%Z -> (0 < b)%Z -> roundPositive a b = Num r -> isDouble r.
Proof.
  intros Ha Hb. unfold roundPositive.
  pose proof (floorLog2_above a b Ha Hb) as Habove.
  pose proof (inject_Z_pos b Hb) as Hb'.
  set (e := floorLog2 a b) in *.
  set (K := Z.max (e - 52) (-1074)).
  pose proof (scale2_power a b K) as Hs.
  destruct (scale2_positive a b K Ha Hb) as [Hx Hy].
  destruct (scale2 a b K) as [x y]. cbn [fst snd] in Hs, Hx, Hy.
  assert (Hxy : (x < y * 2 ^ 53)%Z).
  { rewrite Zlt_Qlt, inject_Z_mult, inject_Z_pow2 by lia.
    assert (Hpow : 2 ^ (e + 1) <= 2 ^ (53 + K)).
    { apply Qpower_le_compat_l; [unfold K; lia | lra]. }
    rewrite (pow2_add 53 K) in Hpow.
    pose proof (pow2_pos K) as Hp. pose proof (inject_Z_pos y Hy) as Hy'.
    revert Habove Hs Hpow Hp.
    generalize (2 ^ (e + 1)) (2 ^ K) (2 ^ 53) (inject_Z a) (inject_Z b) (inject_Z x)
               (inject_Z y) Hb' Hy'.
    intros pe pK p53 qa qb qx qy Hqb Hqy Habove Hs Hpow Hp.
    assert (Hbk : 0 < qb * pK) by (apply Qmult_lt_0_compat; assumption).
    apply (Qmult_lt_r _ _ (qb * pK) Hbk).
    setoid_replace (qx * (qb * pK)) with (qx * qb * pK) by ring.
    rewrite Hs.
    setoid_replace (qy * p53 * (qb * pK)) with (qy * (qb * (p53 * pK))) by ring.
    setoid_replace (qa * qy) with (qy * qa) by ring.
    apply Qmult_lt_l; [exact Hqy |].
    eapply Qlt_le_trans; [exact Habove |].
    apply Qmult_le_l; assumption. }
  pose proof (roundHalfEven_below x y (2 ^ 53) Hy Hxy) as Hup.
  pose proof (roundHalfEven_nonneg x y ltac:(lia) Hy) as Hlo.
  set (M := roundHalfEven x y) in *.
  destruct (Z.ltb_spec 971 K) as [? | HK]; [discriminate |].
  cbn [orb].
  destruct (andb _ _) eqn:Htest; [discriminate |].
  intro Hr. injection Hr as <-.
  change (isDouble (Qred (dyadic M K))).
  assert (HK0 : (-1074 <= K)%Z) by (unfold K; lia).
  destruct (Z.lt_ge_cases M (2 ^ 53)) as [Hlt | Hge].
  - exists M, K. split; [lia | split; [lia |]]. apply Qred_correct.
  - assert (M = (2 ^ 53)%Z) as HM by lia.
    assert (HK1 : (K < 971)%Z).
    { destruct (Z.eqb_spec K 971) as [HKeq | ?]; [| lia].
      cbn [andb] in Htest. apply Z.leb_gt in Htest. lia. }
    exists (2 ^ 52)%Z, (K + 1)%Z. split; [| split; [lia |]].
    + rewrite Z.abs_eq by (apply Z.pow_nonneg; lia). apply Z.pow_lt_mono_r; lia.
    + rewrite Qred_correct, !dyadic_power, HM, pow2_add, !inject_Z_pow2 by lia.
      replace 53%Z with (52 + 1)%Z by reflexivity. rewrite pow2_add. ring.
Qed.

Lemma round64_is_double (q r : Q) : round64 q = Num r -> isDouble r.
Proof.
  unfold round64. destruct (Qred q) as [n d]. cbn [Qnum Qden].
  destruct n as [| p | p].
  - intro H. injection H as <-. exists 0%Z, 0%Z. split; [reflexivity | split; [lia | reflexivity]].
  - apply roundPositive_is_double; reflexivity.
  - destruct (roundPositive (Zpos p) (Zpos d)) as [| s | r'] eqn:Hr; try discriminate.
    intro H. injection H as <-.
    apply isDouble_opp, (roundPositive_is_double (Zpos p) (Zpos d)); [reflexivity .. | exact Hr].
Qed.

(** The rounding at work: 2^53 + 1 is not a double and rounds to 2^53; the
    doubles nearest 0.1 and 0.2 add up to the double 0.30000000000000004;
    the largest double plus the same overflows. *)
Example round64_examples :
  round64 (inject_Z (2 ^ 53 + 1)) = num_of_Z (2 ^ 53) /\
  (round64 (1 # 10) + round64 (2 # 10))%num =
    Num (1351079888211149 # 4503599627370496) /\
  numberToString shortestDecimal (round64 (1 # 10) + round64 (2 # 10))%num =
    "0.30000000000000004" /\
  (round64 (inject_Z (2 ^ 1024 - 2 ^ 971)) + round64 (inject_Z (2 ^ 1024 - 2 ^ 971)))%num
    = Infinity false.
Proof.
  repeat split; vm_compute; reflexivity.
Qed.

(** Number::toString on some doubles: 2^60 shows 16 digits, 10^21 goes to
    exponent notation, 10^-7 as well. *)
Example shortestDecimal_examples :
  shortestDecimal (inject_Z (2 ^ 60)) = "1152921504606847000" /\
  shortestDecimal (inject_Z (10 ^ 21)) = "1e+21" /\
  shortestDecimal (15 # 2) = "7.5" /\
  numberToString shortestDecimal (round64 (1 # 10)) = "0.1" /\
  numberToString shortestDecimal (round64 (1 # 10 ^ 7)) = "1e-7" /\
  numberToString shortestDecimal (round64 (-1234567 # 1000)) = "-1234.567".
Proof.
  repeat split; vm_compute; reflexivity.
Qed.

(** ** The command built by the segment extractor *)

Section SegmentCommandFacts.

Variable fractionToString : Q -> string.

(** The builder calls, grouped as the source makes them. *)
Lemma cmd_options (path : string) (s : AudioSegmentSettings) :
  options (cmd fractionToString path s) =
    ([setStartTime (startSecs s); setDuration (endSecs s - startSecs s)%num; noVideo]
     ++ (if truthy_bool (toMono s) then [audioChannels one] else [])
     ++ match bitrateConversion s with
        | Some bitrate => if ToBoolean bitrate then [audioBitrate bitrate] else []
        | None => []
        end
     ++ (if (effectivePlaybackSpeed s != one)%num
         then [audioFilters ("atempo=" ++
                 numberToString fractionToString (effectivePlaybackSpeed s))]
         else [])
     ++ [output (newPath fractionToString path s)])%list.
Proof.
  unfold cmd; simpl.
  destruct (truthy_bool (toMono s));
    destruct (bitrateConversion s) as [b |]; try destruct (ToBoolean b);
    destruct (effectivePlaybackSpeed s != one)%num; reflexivity.
Qed.

Lemma effectivePlaybackSpeed_falsy (s : AudioSegmentSettings) (v : number) :
  playbackSpeed s = Some v -> ToBoolean v = false -> effectivePlaybackSpeed s = one.
Proof.
  intros Hs Hv. unfold effectivePlaybackSpeed. rewrite Hs, Hv. reflexivity.
Qed.

End SegmentCommandFacts.

(** ** Playback speed (C5, C6, C10) *)

(** C5, as stated, fails at playback speed 0: zero is below 0.5, yet the
    effective speed is 1.0, not 0.5. *)
Lemma C5_zero_is_not_clamped :
  (zero < half)%num = true /\
  effectivePlaybackSpeed (settingsWithSpeed (Some zero)) = one /\
  effectivePlaybackSpeed (settingsWithSpeed (Some zero)) <> half.
Proof.
  split; [reflexivity | split; [reflexivity | discriminate]].
Qed.

Lemma in_range_kept (v : number) :
  ToBoolean v = true -> (v < half)%num = false -> (v > two)%num = false ->
  (half <= v)%num = true /\ (v <= two)%num = true.
Proof.
  unfold num_gt. intros Ht Hlo Hhi.
  destruct v as [| n | q]; simpl in *; try discriminate.
  - destruct n; discriminate.
  - rewrite Hlo, Hhi. split; reflexivity.
Qed.

(** C5 (amended).  For every settings value the effective playback speed lies
    in [0.5, 2.0]: an unset speed, and the falsy speeds 0 and NaN, give 1.0;
    every other speed below 0.5 gives 0.5; a speed above 2.0 gives 2.0; a
    speed already in range is kept.  No speed makes [getAudioFileSegment]
    reject: it rejects exactly when the ffmpeg run itself reports an error. *)
Theorem C5_effective_speed_in_range
    (fractionToString : Q -> string) (World : Type)
    (ffmpegRun : FfmpegCommand -> World -> option Error * World)
    (path : string) (s : AudioSegmentSettings) (st : State World) :
  (half <= effectivePlaybackSpeed s)%num = true /\
  (effectivePlaybackSpeed s <= two)%num = true /\
  (playbackSpeed s = None -> effectivePlaybackSpeed s = one) /\
  (forall v, playbackSpeed s = Some v -> ToBoolean v = false ->
             effectivePlaybackSpeed s = one) /\
  (forall v, playbackSpeed s = Some v -> ToBoolean v = true ->
             (v < half)%num = true -> effectivePlaybackSpeed s = half) /\
  (forall v, playbackSpeed s = Some v -> (v > two)%num = true ->
             effectivePlaybackSpeed s = two) /\
  (forall v, playbackSpeed s = Some v -> ToBoolean v = true ->
             (v < half)%num = false -> (v > two)%num = false ->
             effectivePlaybackSpeed s = v) /\
  fst (getAudioFileSegment fractionToString World ffmpegRun path s st) =
    match fst (ffmpegRun (cmd fractionToString path s) (world st)) with
    | None => Resolved (newPath fractionToString path s)
    | Some err => Rejected err
    end.
Proof.
  assert (Hrange : (half <= effectivePlaybackSpeed s)%num = true /\
                   (effectivePlaybackSpeed s <= two)%num = true).
  { unfold effectivePlaybackSpeed.
    destruct (playbackSpeed s) as [v |]; [| split; reflexivity].
    destruct (ToBoolean v) eqn:Ht; cbn [negb]; [| split; reflexivity].
    destruct (v < half)%num eqn:Hlo; [split; reflexivity |].
    destruct (v > two)%num eqn:Hhi; [split; reflexivity |].
    now apply in_range_kept. }
  destruct Hrange as [Hlow Hhigh].
  unfold effectivePlaybackSpeed.
  repeat split.
  - exact Hlow.
  - exact Hhigh.
  - intros ->. reflexivity.
  - intros v -> ->. reflexivity.
  - intros v -> -> ->. reflexivity.
  - intros v -> Hhi.
    destruct (ToBoolean v) eqn:Ht; cbn [negb].
    + destruct (v < half)%num eqn:Hlo; [| now rewrite Hhi].
      exfalso. destruct v as [| n | q]; simpl in *; try discriminate.
      * destruct n; discriminate.
      * unfold num_gt in Hhi; simpl in Hhi.
        apply Qlt_bool_iff in Hlo, Hhi. unfold inject_Z in Hhi. lra.
    + exfalso. apply ToBoolean_false_iff in Ht.
      destruct Ht as [-> | (q & -> & Hq)]; [discriminate |].
      unfold num_gt in Hhi; simpl in Hhi. apply Qlt_bool_iff in Hhi.
      unfold inject_Z in Hhi. lra.
  - intros v -> -> -> ->. reflexivity.
  - unfold getAudioFileSegment.
    destruct (ffmpegRun (cmd fractionToString path s) (world st)) as [[err |] w];
      reflexivity.
Qed.

(** C5 (amended), at a concrete call: speed 3 on a disk holding the input. *)
Lemma C5_effective_speed_in_range_witness :
  effectivePlaybackSpeed (settingsWithSpeed (Some (num_of_Z 3))) = two.
Proof.
  apply (C5_effective_speed_in_range plainFraction Disk diskFfmpeg "a.wav"
           (settingsWithSpeed (Some (num_of_Z 3))) (freshState ["a.wav"]%list)
           : _ /\ _ /\ _ /\ _ /\ _ /\ _ /\ _ /\ _) with (v := num_of_Z 3);
    reflexivity.
Defined.

Lemma atempo_filter_shape
    (fractionToString : Q -> string) (path : string) (s : AudioSegmentSettings) :
  filter isAudioFilter (options (cmd fractionToString path s)) =
    if num_eq (effectivePlaybackSpeed s) one then []
    else [audioFilters ("atempo=" ++
            numberToString fractionToString (effectivePlaybackSpeed s))].
Proof.
  rewrite cmd_options. unfold num_neq.
  rewrite !filter_app.
  destruct (truthy_bool (toMono s));
    destruct (bitrateConversion s) as [b |]; try destruct (ToBoolean b);
    destruct (num_eq (effectivePlaybackSpeed s) one); reflexivity.
Qed.

(** C6.  The command carries an [audioFilters] call exactly when the
    effective playback speed differs from 1, and then exactly one,
    [atempo=<speed>]; at speed 1 the command has no [audioFilters] call at
    all. *)
Theorem C6_atempo_only_when_speed_differs
    (fractionToString : Q -> string) (path : string) (s : AudioSegmentSettings) :
  filter isAudioFilter (options (cmd fractionToString path s)) =
    if num_eq (effectivePlaybackSpeed s) one then []
    else [audioFilters ("atempo=" ++
            numberToString fractionToString (effectivePlaybackSpeed s))].
Proof.
  apply atempo_filter_shape.
Qed.

(** C10.  A playback speed of 0 or NaN is treated as unset: the effective
    speed is 1 and the command has no [audioFilters] call.  A bitrate
    conversion of 0 (or NaN) is treated as absent: the command has no
    [audioBitrate] call. *)
Theorem C10_falsy_settings_are_unset
    (fractionToString : Q -> string) (path : string) (s : AudioSegmentSettings) :
  (forall v, playbackSpeed s = Some v ->
             (v = NaN \/ exists q, v = Num q /\ q == 0) ->
             effectivePlaybackSpeed s = one /\
             filter isAudioFilter (options (cmd fractionToString path s)) = []) /\
  (forall b, bitrateConversion s = Some b ->
             (b = NaN \/ exists q, b = Num q /\ q == 0) ->
             filter isAudioBitrate (options (cmd fractionToString path s)) = []).
Proof.
  split.
  - intros v Hs Hv. apply ToBoolean_false_iff in Hv.
    pose proof (effectivePlaybackSpeed_falsy s v Hs Hv) as He.
    split; [exact He |].
    rewrite atempo_filter_shape, He. reflexivity.
  - intros b Hs Hb. apply ToBoolean_false_iff in Hb.
    rewrite cmd_options, Hs, Hb, !filter_app.
    destruct (truthy_bool (toMono s));
      destruct (effectivePlaybackSpeed s != one)%num; reflexivity.
Qed.

(** C10 at speed 0 and bitrate 0. *)
Lemma C10_falsy_settings_are_unset_witness :
  effectivePlaybackSpeed
    {| startSecs := zero; endSecs := one; toMono := Some true;
       bitrateConversion := Some zero; playbackSpeed := Some zero |} = one /\
  options (cmd plainFraction "a.wav"
    {| startSecs := zero; endSecs := one; toMono := Some true;
       bitrateConversion := Some zero; playbackSpeed := Some zero |}) =
    [setStartTime zero; setDuration (one - zero)%num; noVideo; audioChannels one;
     output "a.wav.segment-0-1.mp3"]%list.
Proof.
  split; [| reflexivity].
  apply (proj1 (C10_falsy_settings_are_unset plainFraction "a.wav"
                  {| startSecs := zero; endSecs := one; toMono := Some true;
                     bitrateConversion := Some zero; playbackSpeed := Some zero |})
           zero eq_refl).
  right. exists 0. split; reflexivity.
Defined.

(** ** The output path (C7) *)

(** The same value is rendered the same way, however it is written. *)
Lemma numberToString_same (fractionToString : Q -> string) (a b : number) :
  sameValue a b = true ->
  numberToString fractionToString a = numberToString fractionToString b.
Proof.
  destruct a as [| na | x], b as [| nb | y]; cbn [sameValue]; try discriminate.
  - reflexivity.
  - intro H. apply Bool.eqb_prop in H. now subst.
  - intro H. apply Qeq_bool_iff in H. cbn [numberToString].
    now rewrite (Qred_complete x y H).
Qed.

(** Integers below 2^53 in magnitude are rendered by their decimal digits. *)
Lemma numberToString_integer (fractionToString : Q -> string) (a : Z) :
  (Z.abs a < 2 ^ 53)%Z -> numberToString fractionToString (num_of_Z a) = Z_to_string a.
Proof.
  intro Ha. unfold num_of_Z, numberToString, is_integer. rewrite Qred_whole.
  cbn [inject_Z Qnum Qden Z.eqb Pos.eqb andb].
  apply Z.ltb_lt in Ha. rewrite Ha. reflexivity.
Qed.

Lemma newPath_integers (fractionToString : Q -> string) (path : string)
    (a b : Z) (mono : option bool) (bitrate speed : option number) :
  (Z.abs a < 2 ^ 53)%Z -> (Z.abs b < 2 ^ 53)%Z ->
  newPath fractionToString path
    {| startSecs := num_of_Z a; endSecs := num_of_Z b; toMono := mono;
       bitrateConversion := bitrate; playbackSpeed := speed |} =
  path ++ ".segment-" ++ Z_to_string a ++ "-" ++ Z_to_string b ++ ".mp3".
Proof.
  intros Ha Hb. unfold newPath. cbn [startSecs endSecs].
  now rewrite !numberToString_integer.
Qed.

(** C7.  The output path depends on the input path and on the values of
    [startSecs] and [endSecs] only: two settings whose bounds are the same
    numbers, however written and whatever their other fields, give the same
    path.  The path is [<path>.segment-<startSecs>-<endSecs>.mp3] with the
    two numbers rendered by [numberToString] (by Number::toString,
    [Number_toString], when its parameter is [shortestDecimal]), which for
    whole numbers below 2^53 in magnitude means their decimal digits; it is
    the target of the command's [output] call; and any two successful calls
    with these arguments resolve to the same string, whatever the state of
    the world. *)
Theorem C7_output_path_is_pure
    (fractionToString : Q -> string) (World : Type)
    (ffmpegRun : FfmpegCommand -> World -> option Error * World)
    (path : string) (s1 s2 : AudioSegmentSettings) (st1 st2 : State World)
    (p1 p2 : string) (a b : Z) :
  sameValue (startSecs s1) (startSecs s2) = true ->
  sameValue (endSecs s1) (endSecs s2) = true ->
  newPath fractionToString path s1 = newPath fractionToString path s2 /\
  newPath fractionToString path s1 =
    path ++ ".segment-" ++ numberToString fractionToString (startSecs s1)
         ++ "-" ++ numberToString fractionToString (endSecs s1) ++ ".mp3" /\
  newPath shortestDecimal path s1 =
    path ++ ".segment-" ++ Number_toString (startSecs s1)
         ++ "-" ++ Number_toString (endSecs s1) ++ ".mp3" /\
  outputOf (cmd fractionToString path s1) = [newPath fractionToString path s1]%list /\
  (fst (getAudioFileSegment fractionToString World ffmpegRun path s1 st1) = Resolved p1 ->
   fst (getAudioFileSegment fractionToString World ffmpegRun path s2 st2) = Resolved p2 ->
   p1 = newPath fractionToString path s1 /\ p2 = p1) /\
  ((Z.abs a < 2 ^ 53)%Z -> (Z.abs b < 2 ^ 53)%Z ->
   sameValue (startSecs s1) (num_of_Z a) = true ->
   sameValue (endSecs s1) (num_of_Z b) = true ->
   newPath fractionToString path s1 =
     path ++ ".segment-" ++ Z_to_string a ++ "-" ++ Z_to_string b ++ ".mp3").
Proof.
  intros Hstart Hend.
  assert (Hsame : newPath fractionToString path s1 = newPath fractionToString path s2).
  { unfold newPath.
    now rewrite (numberToString_same _ _ _ Hstart), (numberToString_same _ _ _ Hend). }
  split; [exact Hsame | split; [reflexivity | split; [reflexivity | split; [| split]]]].
  - unfold outputOf. rewrite cmd_options, !flat_map_app.
    destruct (truthy_bool (toMono s1));
      destruct (bitrateConversion s1) as [r |]; try destruct (ToBoolean r);
      destruct (effectivePlaybackSpeed s1 != one)%num; reflexivity.
  - unfold getAudioFileSegment. intros H1 H2.
    destruct (ffmpegRun (cmd fractionToString path s1) (world st1)) as [[e1 |] w1];
      [discriminate |].
    destruct (ffmpegRun (cmd fractionToString path s2) (world st2)) as [[e2 |] w2];
      [discriminate |].
    cbn [fst] in H1, H2. injection H1 as <-. injection H2 as <-.
    split; [reflexivity | symmetry; exact Hsame].
  - intros Ha Hb Hsa Hsb. unfold newPath.
    rewrite (numberToString_same _ _ _ Hsa), (numberToString_same _ _ _ Hsb).
    now rewrite !numberToString_integer.
Qed.

(** C7 on the segment from 7.5 s to 570 s of [a.wav], its start written as
    15/2 in one call and as 60/8 in the other, extracted with different
    conversions. *)
Lemma C7_output_path_is_pure_witness :
  newPath plainFraction "a.wav"
    {| startSecs := Num (15 # 2); endSecs := num_of_Z 570; toMono := Some true;
       bitrateConversion := Some TARGET_VOICE_TO_TEXT_BITRATE;
       playbackSpeed := Some two |} = "a.wav.segment-7.5-570.mp3" /\
  newPath plainFraction "a.wav"
    {| startSecs := Num (15 # 2); endSecs := num_of_Z 570; toMono := Some true;
       bitrateConversion := Some TARGET_VOICE_TO_TEXT_BITRATE;
       playbackSpeed := Some two |} =
  newPath plainFraction "a.wav"
    {| startSecs := Num (60 # 8); endSecs := num_of_Z 570; toMono := None;
       bitrateConversion := None; playbackSpeed := None |}.
Proof.
  split; [vm_compute; reflexivity |].
  refine (proj1 (C7_output_path_is_pure plainFraction Disk diskFfmpeg "a.wav"
           {| startSecs := Num (15 # 2); endSecs := num_of_Z 570; toMono := Some true;
              bitrateConversion := Some TARGET_VOICE_TO_TEXT_BITRATE;
              playbackSpeed := Some two |}
           {| startSecs := Num (60 # 8); endSecs := num_of_Z 570; toMono := None;
              bitrateConversion := None; playbackSpeed := None |}
           (freshState ["a.wav"]%list) (freshState ["a.wav"]%list)
           "a.wav.segment-7.5-570.mp3" "a.wav.segment-7.5-570.mp3" 0 570
           eq_refl eq_refl)).
Defined.

(** ** The microphone recorder (C9) *)

Lemma micRun_promise (outPath : string) (evs : list MicEvent) (r : Recorder) :
  completedPathPromise (fold_left (micStep outPath) evs r) =
    if existsb isClose evs then pathResolve outPath (completedPathPromise r)
    else completedPathPromise r.
Proof.
  revert r. induction evs as [| ev evs IH]; intro r; [reflexivity |].
  cbn [fold_left existsb]. rewrite IH.
  destruct ev as [data | code |]; cbn [isClose orb micStep completedPathPromise].
  - reflexivity.
  - destruct (existsb isClose evs); [| reflexivity].
    destruct (completedPathPromise r); reflexivity.
  - reflexivity.
Qed.

Lemma settlements_from (outPath : string) (evs : list MicEvent) (r : Recorder) :
  settlements outPath r evs =
    if isPending (completedPathPromise r) && existsb isClose evs then 1%nat else 0%nat.
Proof.
  revert r. induction evs as [| ev evs IH]; intro r.
  - cbn [settlements existsb]. rewrite andb_false_r. reflexivity.
  - cbn [settlements existsb]. rewrite IH.
    destruct ev as [data | code |]; cbn [isClose orb micStep completedPathPromise].
    + destruct (isPending (completedPathPromise r)); reflexivity.
    + destruct (completedPathPromise r); reflexivity.
    + destruct (isPending (completedPathPromise r)); reflexivity.
Qed.

(** C9.  Whatever the capture process emits and however often [fStop] is
    called: the completion promise is pending until the first 'close' and
    fulfilled with [outPath] from then on, so it is never rejected; the run
    settles it exactly once if a 'close' occurs and not at all otherwise;
    and a 'close' with exit code [code] does the same to the promise for
    every [code], the code appearing only in the console line it logs. *)
Theorem C9_completion_resolves_with_outPath
    (outPath : string) (evs : list MicEvent) (code : option Z) :
  completedPathPromise (micRun outPath evs) =
    (if existsb isClose evs then Fulfilled outPath else StillPending) /\
  settlements outPath (recordMicrophone outPath) evs =
    (if existsb isClose evs then 1%nat else 0%nat) /\
  completedPathPromise (micRun outPath (evs ++ [Close code])) = Fulfilled outPath /\
  console (micRun outPath (evs ++ [Close code])) =
    (console (micRun outPath evs)
       ++ [String.append "mic exited with code " (codeToString code)])%list.
Proof.
  unfold micRun. repeat split.
  - rewrite micRun_promise. reflexivity.
  - rewrite settlements_from. reflexivity.
  - rewrite micRun_promise, existsb_app. cbn [existsb isClose orb].
    rewrite orb_true_r. reflexivity.
  - rewrite fold_left_app. reflexivity.
Qed.

(** ** The chunk processor *)

Lemma noFailure_snoc (tr : list Event) (c : Call) :
  noFailure tr -> noFailure (tr ++ [{| call := c; failure := None |}]).
Proof.
  intros H ev Hin. apply in_app_or in Hin. destruct Hin as [Hin | [<- | []]].
  - now apply H.
  - reflexivity.
Qed.

(** In a run that stops at its first failure, a failing call is the last
    call and its error is the outcome. *)
Lemma failure_is_last {A : Type} (out : Outcome A) (tr pre post : list Event)
    (ev : Event) (err : Error) :
  stopsAtFailure out tr ->
  tr = (pre ++ ev :: post)%list -> failure ev = Some err ->
  post = [] /\ out = Rejected err.
Proof.
  intros Hstop Htr Hev.
  assert (Hin : In ev tr) by (rewrite Htr; apply in_elt).
  destruct out as [a | e |]; cbn [stopsAtFailure] in Hstop;
    try (rewrite (Hstop ev Hin) in Hev; discriminate).
  destruct Hstop as (pre' & c & Htr' & Hpre').
  destruct post as [| x post] using rev_ind.
  - rewrite Htr in Htr'. apply app_inj_tail in Htr'. destruct Htr' as [_ ->].
    cbn in Hev. injection Hev as ->. split; reflexivity.
  - exfalso. clear IHpost.
    rewrite Htr, app_comm_cons, app_assoc in Htr'.
    apply app_inj_tail in Htr'. destruct Htr' as [<- _].
    rewrite (Hpre' ev (in_elt ev pre post)) in Hev. discriminate.
Qed.

Section ChunkProcessor.

Variable fractionToString : Q -> string.
Variable World : Type.
Variable ffprobe : string -> World -> (Error + FfprobeFormat) * World.
Variable ffmpegRun : FfmpegCommand -> World -> option Error * World.
Variable fProcess : Handler World.

Local Notation "'loopHere'" :=
  (fun fuel path chunkSecs overlapSecs speed =>
     chunkLoop fractionToString World ffmpegRun fuel path chunkSecs overlapSecs speed
       fProcess) (only parsing).

Local Notation "'processHere'" :=
  (fun fuel path chunkSecs overlapSecs speed =>
     processAudioFileInChunks fractionToString World ffprobe ffmpegRun fuel path
       chunkSecs overlapSecs speed fProcess) (only parsing).

(** One turn of the loop, with the awaits spelled out. *)
Lemma chunkLoop_turn (fuel : nat) (path : string) (chunkSecs overlapSecs speed : number)
    (info : AudioFileInfo) (start : number) (st : State World) :
  loopHere (S fuel) path chunkSecs overlapSecs speed info start st =
    if (start < duration info)%num then
      let settings :=
        chunkSettings start (Math_min (start + chunkSecs)%num (duration info)) speed in
      let chunkPath := newPath fractionToString path settings in
      match ffmpegRun (cmd fractionToString path settings) (world st) with
      | (Some err, w) =>
          (Rejected err, record World (CallSegment path settings) (Some err) w st)
      | (None, w) =>
          let st1 := record World (CallSegment path settings) None w st in
          match fProcess chunkPath true w with
          | (Some err, w') =>
              (Rejected err, record World (CallHandler chunkPath true) (Some err) w' st1)
          | (None, w') =>
              loopHere fuel path chunkSecs overlapSecs speed info
                (start + (chunkSecs - overlapSecs))%num
                (record World (CallHandler chunkPath true) None w' st1)
          end
      end
    else (Resolved tt, st).
Proof.
  cbn beta. cbn [chunkLoop].
  destruct (start < duration info)%num; [| reflexivity].
  unfold await at 1, getAudioFileSegment.
  destruct (ffmpegRun _ (world st)) as [[err |] w]; [reflexivity |].
  unfold await at 1, invoke. cbn [world record].
  destruct (fProcess _ true w) as [[err |] w']; reflexivity.
Qed.

(** The whole function, with the awaits spelled out. *)
Lemma processAudioFileInChunks_unfold (fuel : nat) (path : string)
    (chunkSecs overlapSecs speed : number) (st : State World) :
  processHere fuel path chunkSecs overlapSecs speed st =
    match ffprobe path (world st) with
    | (inl err, w) => (Rejected err, record World (CallFfprobe path) (Some err) w st)
    | (inr metadata, w) =>
        let info := {| duration := nullish (format_duration metadata) zero;
                       bit_rate := nullish (format_bit_rate metadata) zero |} in
        let st1 := record World (CallFfprobe path) None w st in
        if (duration info <= chunkSecs + overlapSecs * two)%num then
          match fProcess path false w with
          | (Some err, w') =>
              (Rejected err, record World (CallHandler path false) (Some err) w' st1)
          | (None, w') =>
              (Resolved tt, record World (CallHandler path false) None w' st1)
          end
        else loopHere fuel path chunkSecs overlapSecs speed info zero st1
    end.
Proof.
  cbn beta. unfold processAudioFileInChunks, await at 1, getAudioFileInfo.
  destruct (ffprobe path (world st)) as [[err | metadata] w]; [reflexivity |].
  cbn [duration].
  destruct (_ <= _)%num; [| reflexivity].
  unfold await, invoke, resolve. cbn [world record].
  destruct (fProcess path false w) as [[err |] w']; reflexivity.
Qed.

End ChunkProcessor.

(** C4.  When the probed duration is at most [chunkSecs + 2 * overlapSecs],
    the run makes exactly two calls, the probe and one handler invocation on
    the original path with [isTemporary = false]; it extracts no segment, the
    world is touched by the probe and the handler only, and the run settles
    as the handler does, whatever the fuel. *)
Theorem C4_short_file_is_handled_once
    (fractionToString : Q -> string) (World : Type)
    (ffprobe : string -> World -> (Error + FfprobeFormat) * World)
    (ffmpegRun : FfmpegCommand -> World -> option Error * World)
    (fProcess : Handler World)
    (fuel : nat) (path : string) (chunkSecs overlapSecs speed : number)
    (st : State World) (metadata : FfprobeFormat) (w : World) :
  ffprobe path (world st) = (inr metadata, w) ->
  (nullish (format_duration metadata) zero <= chunkSecs + overlapSecs * two)%num = true ->
  let result := processAudioFileInChunks fractionToString World ffprobe ffmpegRun
                  fuel path chunkSecs overlapSecs speed fProcess st in
  fst result = match fst (fProcess path false w) with
               | None => Resolved tt
               | Some err => Rejected err
               end /\
  trace (snd result) =
    (trace st ++ [ {| call := CallFfprobe path; failure := None |};
                   {| call := CallHandler path false;
                      failure := fst (fProcess path false w) |} ])%list /\
  world (snd result) = snd (fProcess path false w) /\
  handlerCalls (trace (snd result)) = (handlerCalls (trace st) ++ [(path, false)])%list /\
  chunks (trace (snd result)) = chunks (trace st).
Proof.
  intros Hprobe Hshort result. subst result.
  rewrite processAudioFileInChunks_unfold, Hprobe. cbn [duration]. rewrite Hshort.
  unfold handlerCalls, chunks.
  destruct (fProcess path false w) as [[err |] w']; cbn [fst snd record trace world];
    rewrite <- app_assoc, !flat_map_app; cbn [flat_map call app];
    rewrite !app_nil_r; repeat split; reflexivity.
Qed.

(** C4 on the 100 s file of the scenario (chunks of 300 s, overlap 30 s). *)
Lemma C4_short_file_is_handled_once_witness :
  runOnDisk (num_of_Z 100) 0 "a.wav" (num_of_Z 300) (num_of_Z 30) one [] ["a.wav"] =
    (Resolved tt,
     {| world := ["a.wav"];
        trace := [ {| call := CallFfprobe "a.wav"; failure := None |};
                   {| call := CallHandler "a.wav" false; failure := None |} ] |}).
Proof.
  pose proof (C4_short_file_is_handled_once plainFraction Disk
                (diskProbe (num_of_Z 100)) diskFfmpeg (diskHandler [])
                0 "a.wav" (num_of_Z 300) (num_of_Z 30) one (freshState ["a.wav"])
                {| format_duration := Some (num_of_Z 100); format_bit_rate := None |}
                ["a.wav"] eq_refl eq_refl) as (Hout & Htrace & Hworld & _).
  unfold runOnDisk.
  destruct (processAudioFileInChunks _ _ _ _ _ _ _ _ _ _ _) as [out [wd tr]].
  cbn [fst snd trace world] in Hout, Htrace, Hworld.
  rewrite Hout, Htrace, Hworld. reflexivity.
Defined.

(** ** Failures (C8) *)

Section Failures.

Variable fractionToString : Q -> string.
Variable World : Type.
Variable ffprobe : string -> World -> (Error + FfprobeFormat) * World.
Variable ffmpegRun : FfmpegCommand -> World -> option Error * World.
Variable fProcess : Handler World.

(** The initial world of the run under study. *)
Variable w0 : World.

Local Notation "'replayed' st" :=
  (world st = replay fractionToString World ffprobe ffmpegRun fProcess
                (map call (trace st)) w0) (at level 10, only parsing).

Lemma record_replayed (c : Call) (f : option Error) (w : World) (st : State World) :
  replayed st ->
  w = replayCall fractionToString World ffprobe ffmpegRun fProcess c (world st) ->
  replayed (record World c f w st).
Proof.
  intros Hst Hw. cbn [record world trace].
  rewrite map_app. unfold replay in *. rewrite fold_left_app. cbn [map fold_left call].
  rewrite <- Hst. exact Hw.
Qed.

Lemma rejected_after (tr : list Event) (c : Call) (err : Error) :
  noFailure tr ->
  stopsAtFailure (@Rejected unit err) (tr ++ [{| call := c; failure := Some err |}]).
Proof.
  intro H. exists tr, c. split; [reflexivity | exact H].
Qed.

Lemma chunkLoop_stops_at_failure (fuel : nat) (path : string)
    (chunkSecs overlapSecs speed : number) (info : AudioFileInfo) :
  forall (start : number) (st : State World),
    noFailure (trace st) -> replayed st ->
    let result := chunkLoop fractionToString World ffmpegRun fuel path chunkSecs
                    overlapSecs speed fProcess info start st in
    stopsAtFailure (fst result) (trace (snd result)) /\ replayed (snd result).
Proof.
  induction fuel as [| fuel IH]; intros start st Hok Hrep.
  - cbn. split; assumption.
  - cbv zeta. rewrite chunkLoop_turn.
    destruct (start < duration info)%num; [| cbn; split; assumption].
    cbv zeta.
    destruct (ffmpegRun _ (world st)) as [[err |] w] eqn:Hrun.
    + cbn [fst snd record trace]. split; [now apply rejected_after |].
      apply record_replayed; [exact Hrep |]. cbn [replayCall]. now rewrite Hrun.
    + destruct (fProcess _ true w) as [[err |] w'] eqn:Hh.
      * cbn [fst snd record trace]. split.
        -- apply rejected_after. now apply noFailure_snoc.
        -- apply record_replayed.
           ++ apply record_replayed; [exact Hrep |]. cbn [replayCall]. now rewrite Hrun.
           ++ cbn [replayCall record world]. now rewrite Hh.
      * apply IH.
        -- cbn [record trace]. now apply noFailure_snoc, noFailure_snoc.
        -- apply record_replayed.
           ++ apply record_replayed; [exact Hrep |]. cbn [replayCall]. now rewrite Hrun.
           ++ cbn [replayCall record world]. now rewrite Hh.
Qed.

Lemma processAudioFileInChunks_stops_at_failure (fuel : nat) (path : string)
    (chunkSecs overlapSecs speed : number) :
  let result := processAudioFileInChunks fractionToString World ffprobe ffmpegRun
                  fuel path chunkSecs overlapSecs speed fProcess
                  {| world := w0; trace := [] |} in
  stopsAtFailure (fst result) (trace (snd result)) /\ replayed (snd result).
Proof.
  cbv zeta. rewrite processAudioFileInChunks_unfold. cbn [world].
  assert (Hnil : noFailure []) by (intros ev []).
  destruct (ffprobe path w0) as [[err | metadata] w] eqn:Hprobe.
  - cbn [fst snd record trace world]. split.
    + now apply (rejected_after []).
    + cbn. now rewrite Hprobe.
  - cbv zeta.
    assert (Hrep : replayed (record World (CallFfprobe path) None w
                               {| world := w0; trace := [] |}))
      by (cbn; now rewrite Hprobe).
    destruct (_ <= _)%num.
    + destruct (fProcess path false w) as [[err |] w'] eqn:Hh;
        cbn [fst snd]; (split;
          [| apply record_replayed; [exact Hrep | cbn; now rewrite Hh]]).
      * apply (rejected_after [_]). now apply (noFailure_snoc []).
      * cbn. now apply (noFailure_snoc [_]), (noFailure_snoc []).
    + apply chunkLoop_stops_at_failure; [| exact Hrep].
      now apply (noFailure_snoc []).
Qed.

End Failures.

(** C8.  Run from a fresh trace in world [w0], with any fuel:
    - if the probe fails, the run rejects with the probe's error and the probe
      is the only call made: no segment is extracted, no handler invoked;
    - whichever call fails (probe, extraction or handler), it is the last call
      of the run and the run rejects with its error;
    - the final world is what the calls of the trace, replayed in order, make
      of [w0]: nothing is undone after a failure, and the files created by
      earlier extractions are left as they are. *)
Theorem C8_failure_stops_the_run
    (fractionToString : Q -> string) (World : Type)
    (ffprobe : string -> World -> (Error + FfprobeFormat) * World)
    (ffmpegRun : FfmpegCommand -> World -> option Error * World)
    (fProcess : Handler World)
    (fuel : nat) (path : string) (chunkSecs overlapSecs speed : number) (w0 : World) :
  let result := processAudioFileInChunks fractionToString World ffprobe ffmpegRun
                  fuel path chunkSecs overlapSecs speed fProcess
                  {| world := w0; trace := [] |} in
  (forall err w, ffprobe path w0 = (inl err, w) ->
     result = (Rejected err,
               {| world := w;
                  trace := [{| call := CallFfprobe path; failure := Some err |}] |})) /\
  (forall pre ev post err,
     trace (snd result) = (pre ++ ev :: post)%list -> failure ev = Some err ->
     post = [] /\ fst result = Rejected err) /\
  world (snd result) =
    replay fractionToString World ffprobe ffmpegRun fProcess
      (map call (trace (snd result))) w0.
Proof.
  intro result.
  destruct (processAudioFileInChunks_stops_at_failure fractionToString World ffprobe
              ffmpegRun fProcess w0 fuel path chunkSecs overlapSecs speed)
    as [Hstop Hrep].
  fold result in Hstop, Hrep.
  split; [| split].
  - intros err w Hprobe. subst result.
    rewrite processAudioFileInChunks_unfold. cbn [world]. rewrite Hprobe. reflexivity.
  - intros pre ev post err Htr Hev. exact (failure_is_last _ _ _ _ _ _ Hstop Htr Hev).
  - exact Hrep.
Qed.

(** ** Arithmetic of the loop counter *)

Lemma Qceiling_unique (x : Q) (n : Z) :
  inject_Z n - 1 < x -> x <= inject_Z n -> Qceiling x = n.
Proof.
  intros Hlo Hhi.
  pose proof (Qle_ceiling x) as Hup.
  pose proof (Qceiling_lt x) as Hdown.
  assert (H1 : inject_Z (Qceiling x - 1) < inject_Z n)
    by (eapply Qlt_le_trans; eassumption).
  assert (H2 : inject_Z (n - 1) < inject_Z (Qceiling x)).
  { unfold Z.sub. rewrite inject_Z_plus, inject_Z_opp.
    eapply Qlt_le_trans; [exact Hlo | exact Hup]. }
  rewrite <- Zlt_Qlt in H1, H2. lia.
Qed.

Lemma Qceiling_pred (x : Q) : Qceiling (x - 1) = (Qceiling x - 1)%Z.
Proof.
  pose proof (Qle_ceiling x) as Hup.
  pose proof (Qceiling_lt x) as Hdown.
  unfold Z.sub in Hdown. rewrite inject_Z_plus, inject_Z_opp in Hdown.
  apply Qceiling_unique; unfold Z.sub; rewrite inject_Z_plus, inject_Z_opp;
    change (inject_Z 1) with 1 in *; lra.
Qed.

Lemma Qceiling_pos (x : Q) : 0 < x -> (1 <= Qceiling x)%Z.
Proof.
  intro Hx. pose proof (Qle_ceiling x) as Hup.
  assert (H : inject_Z 0 < inject_Z (Qceiling x))
    by (change (inject_Z 0) with 0; lra).
  rewrite <- Zlt_Qlt in H. lia.
Qed.

Lemma Qceiling_nonpos (x : Q) : x <= 0 -> (Qceiling x <= 0)%Z.
Proof.
  intro Hx. pose proof (Qceiling_lt x) as Hdown.
  assert (H : inject_Z (Qceiling x - 1) < inject_Z 0)
    by (change (inject_Z 0) with 0; lra).
  rewrite <- Zlt_Qlt in H. lia.
Qed.

Lemma Qdiv_le_iff (a b c : Q) : 0 < b -> (a / b <= c <-> a <= c * b).
Proof.
  intro Hb. split; intro H.
  - assert (Ha : a == a / b * b) by (field; lra).
    rewrite Ha. apply Qmult_le_compat_r; [exact H | lra].
  - apply Qle_shift_div_r; assumption.
Qed.

Lemma Qdiv_lt_iff (a b c : Q) : 0 < b -> (c < a / b <-> c * b < a).
Proof.
  intro Hb. split; intro H.
  - assert (Ha : a == a / b * b) by (field; lra).
    rewrite Ha. apply Qmult_lt_compat_r; assumption.
  - apply Qlt_shift_div_l; assumption.
Qed.

Lemma turnsLeft_more (d step q : Q) :
  0 < step -> q < d -> turnsLeft d step q = S (turnsLeft d step (q + step)).
Proof.
  intros Hstep Hq. unfold turnsLeft.
  assert (Heq : (d - (q + step)) / step == (d - q) / step - 1)
    by (field; lra).
  rewrite Heq, Qceiling_pred.
  assert (Hpos : 0 < (d - q) / step)
    by (apply Qlt_shift_div_l; [exact Hstep | lra]).
  apply Qceiling_pos in Hpos. lia.
Qed.

Lemma turnsLeft_done (d step q : Q) :
  0 < step -> d <= q -> turnsLeft d step q = 0%nat.
Proof.
  intros Hstep Hq. unfold turnsLeft.
  assert (Hneg : (d - q) / step <= 0)
    by (apply Qle_shift_div_r; [exact Hstep | lra]).
  apply Qceiling_nonpos in Hneg. lia.
Qed.

(** ** Termination and the number of chunks (C1, C3) *)

Lemma handlerCount_segment {World : Type} (st : State World) (path : string)
    (settings : AudioSegmentSettings) (f : option Error) (w : World) :
  handlerCount (trace (record World (CallSegment path settings) f w st)) =
    handlerCount (trace st).
Proof.
  unfold handlerCount, handlerCalls. cbn [record trace].
  rewrite flat_map_app. cbn. rewrite app_nil_r. reflexivity.
Qed.

Lemma handlerCount_handler {World : Type} (st : State World) (path : string)
    (isTemporary : bool) (f : option Error) (w : World) :
  handlerCount (trace (record World (CallHandler path isTemporary) f w st)) =
    S (handlerCount (trace st)).
Proof.
  unfold handlerCount, handlerCalls. cbn [record trace].
  rewrite flat_map_app, length_app. cbn. lia.
Qed.

Lemma turnsLeft_same (d step q q' : Q) :
  q == q' -> turnsLeft d step q = turnsLeft d step q'.
Proof.
  intro H. unfold turnsLeft. f_equal. apply Qceiling_comp. now rewrite H.
Qed.

Lemma below_bound (q B : Z) (d : Q) :
  inject_Z q < d -> d <= inject_Z B -> (q < B)%Z.
Proof.
  intros Hq Hd. rewrite Zlt_Qlt. eapply Qlt_le_trans; eassumption.
Qed.

(** The threshold of the short-file test is exact on whole seconds. *)
Lemma threshold_whole (c o : Z) :
  (0 <= o <= c)%Z -> (c <= 2 ^ 51)%Z ->
  (num_of_Z c + num_of_Z o * two)%num = num_of_Z (c + o * 2).
Proof.
  intros Ho Hc. unfold two.
  rewrite num_mul_whole by lia. apply num_add_whole. lia.
Qed.

Section Chunking.

Variable fractionToString : Q -> string.
Variable World : Type.
Variable ffmpegRun : FfmpegCommand -> World -> option Error * World.
Variable fProcess : Handler World.

Variable path : string.
Variable speed : number.
Variable bitRate : number.

(** Whole seconds: [chunkSecs] is [c], [overlapSecs] is [o], from 0 to 2^51,
    and the duration [d], any rational, is at most 2^52.  Every sum and
    difference the loop computes is then a whole number below 2^53, which
    binary64 holds exactly. *)
Variables c o : Z.
Variable d : Q.
Hypothesis overlap_range : (0 <= o <= c)%Z.
Hypothesis chunk_range : (c <= 2 ^ 51)%Z.
Hypothesis duration_range : d <= inject_Z (2 ^ 52).

Local Notation "'loopFrom' fuel q" :=
  (chunkLoop fractionToString World ffmpegRun fuel path (num_of_Z c) (num_of_Z o)
     speed fProcess {| duration := Num d; bit_rate := bitRate |} (num_of_Z q))
  (at level 10, fuel at level 9, q at level 9, only parsing).

(** The two sums of a turn that starts at the whole number [q] < [d]. *)
Lemma whole_turn (q : Z) :
  (0 <= q)%Z -> inject_Z q < d ->
  (num_of_Z q + num_of_Z c)%num = num_of_Z (q + c) /\
  (num_of_Z q + (num_of_Z c - num_of_Z o))%num = num_of_Z (q + (c - o)).
Proof.
  intros Hq Hlt. pose proof (below_bound q _ d Hlt duration_range) as Hb.
  split.
  - apply num_add_whole. lia.
  - rewrite num_sub_whole by lia. apply num_add_whole. lia.
Qed.

Lemma turnsLeft_next (q : Z) :
  (o < c)%Z -> inject_Z q < d ->
  turnsLeft d (inject_Z (c - o)) (inject_Z q) =
    S (turnsLeft d (inject_Z (c - o)) (inject_Z (q + (c - o)))).
Proof.
  intros Hoc Hlt.
  rewrite (turnsLeft_same d _ (inject_Z (q + (c - o))) (inject_Z q + inject_Z (c - o)))
    by (rewrite inject_Z_plus; reflexivity).
  apply turnsLeft_more; [| exact Hlt].
  change 0 with (inject_Z 0). rewrite <- Zlt_Qlt. lia.
Qed.


Hypothesis extraction_succeeds : forall command w, fst (ffmpegRun command w) = None.
Hypothesis handler_succeeds : forall p isTemporary w, fst (fProcess p isTemporary w) = None.

(** When every extraction and every handler call succeeds, the loop resolves
    after invoking the handler [turnsLeft] more times, and the chunks it
    extracts are those of [chunksFrom]. *)
Lemma chunkLoop_count :
  (o < c)%Z ->
  forall (fuel : nat) (q : Z) (st : State World),
    (0 <= q)%Z ->
    (turnsLeft d (inject_Z (c - o)) (inject_Z q) < fuel)%nat ->
    fst (loopFrom fuel q st) = Resolved tt /\
    handlerCount (trace (snd (loopFrom fuel q st))) =
      (handlerCount (trace st) + turnsLeft d (inject_Z (c - o)) (inject_Z q))%nat /\
    chunks (trace (snd (loopFrom fuel q st))) =
      (chunks (trace st)
       ++ chunksFrom (turnsLeft d (inject_Z (c - o)) (inject_Z q)) c o d q)%list.
Proof.
  intro Hstep. induction fuel as [| fuel IH]; intros q st Hq Hfuel; [lia |].
  rewrite chunkLoop_turn. cbn [duration].
  change (num_of_Z q < Num d)%num with (Qlt_bool (inject_Z q) d).
  destruct (Qlt_bool (inject_Z q) d) eqn:Hlt.
  - apply Qlt_bool_iff in Hlt. cbv zeta.
    rewrite (turnsLeft_next q Hstep Hlt) in Hfuel |- *.
    destruct (ffmpegRun _ (world st)) as [r w] eqn:Hrun.
    pose proof (extraction_succeeds
                  (cmd fractionToString path
                     (chunkSettings (num_of_Z q)
                        (Math_min (num_of_Z q + num_of_Z c) (Num d)) speed))
                  (world st)) as Hr.
    rewrite Hrun in Hr. cbn [fst] in Hr. subst r.
    destruct (fProcess _ true w) as [r w'] eqn:Hh.
    pose proof (handler_succeeds
                  (newPath fractionToString path
                     (chunkSettings (num_of_Z q)
                        (Math_min (num_of_Z q + num_of_Z c) (Num d)) speed))
                  true w) as Hr.
    rewrite Hh in Hr. cbn [fst] in Hr. subst r.
    rewrite (proj2 (whole_turn q Hq Hlt)).
    match goal with
    | |- context [chunkLoop _ _ _ fuel _ _ _ _ _ _ _ ?s] =>
        destruct (IH (q + (c - o))%Z s) as (Hout & Hcount & Hchunks); [lia | lia |]
    end.
    split; [exact Hout |]. rewrite Hcount, Hchunks.
    rewrite handlerCount_handler, handlerCount_segment.
    unfold chunks. cbn [record trace chunksFrom].
    rewrite !flat_map_app. cbn [flat_map call chunkSettings startSecs endSecs app].
    rewrite <- !app_assoc. split; [lia | reflexivity].
  - apply Qlt_bool_false_iff in Hlt.
    rewrite (turnsLeft_done d (inject_Z (c - o)) (inject_Z q))
      by (try exact Hlt; change 0 with (inject_Z 0); rewrite <- Zlt_Qlt; lia).
    cbn [fst snd chunksFrom]. rewrite app_nil_r. repeat split. lia.
Qed.

End Chunking.


Section Stalling.

Variable fractionToString : Q -> string.
Variable World : Type.
Variable ffmpegRun : FfmpegCommand -> World -> option Error * World.
Variable fProcess : Handler World.

Variable path : string.
Variables chunkSecs overlapSecs speed bitRate : number.

Hypothesis extraction_succeeds : forall command w, fst (ffmpegRun command w) = None.
Hypothesis handler_succeeds : forall p isTemporary w, fst (fProcess p isTemporary w) = None.


(** Nor does a positive step always help: from [startSecs = 2^53] a step of
    one second is lost in the rounding of the sum, [startSecs] stays where it
    is, and the loop is still running when the fuel runs out. *)
Lemma chunkLoop_stalls_at_2_53 (d : Q) :
  chunkSecs = num_of_Z 1 -> overlapSecs = num_of_Z 0 -> inject_Z (2 ^ 53) < d ->
  forall (fuel : nat) (st : State World),
    fst (chunkLoop fractionToString World ffmpegRun fuel path chunkSecs overlapSecs
           speed fProcess {| duration := Num d; bit_rate := bitRate |}
           (num_of_Z (2 ^ 53)) st)
      = Pending.
Proof.
  intros -> -> Hd. induction fuel as [| fuel IH]; intro st; [reflexivity |].
  rewrite chunkLoop_turn. cbn [duration].
  assert (Hlt : (num_of_Z (2 ^ 53) < Num d)%num = true) by (now apply Qlt_bool_iff).
  rewrite Hlt. cbv zeta.
  destruct (ffmpegRun _ (world st)) as [r w] eqn:Hrun.
  pose proof (extraction_succeeds
                (cmd fractionToString path
                   (chunkSettings (num_of_Z (2 ^ 53))
                      (Math_min (num_of_Z (2 ^ 53) + num_of_Z 1) (Num d)) speed))
                (world st)) as Hr.
  rewrite Hrun in Hr. cbn [fst] in Hr. subst r.
  destruct (fProcess _ true w) as [r w'] eqn:Hh.
  pose proof (handler_succeeds
                (newPath fractionToString path
                   (chunkSettings (num_of_Z (2 ^ 53))
                      (Math_min (num_of_Z (2 ^ 53) + num_of_Z 1) (Num d)) speed))
                true w) as Hr.
  rewrite Hh in Hr. cbn [fst] in Hr. subst r.
  replace (num_of_Z (2 ^ 53) + (num_of_Z 1 - num_of_Z 0))%num with (num_of_Z (2 ^ 53))
    by (vm_compute; reflexivity).
  apply IH.
Qed.

End Stalling.

(** When chunk and overlap are whole seconds ([0 <= overlapSecs < chunkSecs
    <= 2^51]), the file is long enough to be chunked, no longer than 2^52
    seconds, and every call succeeds, the run resolves, given enough fuel,
    after invoking the handler [ceil (d / (chunkSecs - overlapSecs))]
    times. *)
Lemma handlerCount_when_chunking
    (fractionToString : Q -> string) (World : Type)
    (ffprobe : string -> World -> (Error + FfprobeFormat) * World)
    (ffmpegRun : FfmpegCommand -> World -> option Error * World)
    (fProcess : Handler World)
    (path : string) (c o : Z) (d : Q) (speed : number)
    (st : State World) (metadata : FfprobeFormat) (w : World) (fuel : nat) :
  (forall command w', fst (ffmpegRun command w') = None) ->
  (forall p isTemporary w', fst (fProcess p isTemporary w') = None) ->
  ffprobe path (world st) = (inr metadata, w) ->
  nullish (format_duration metadata) zero = Num d ->
  (0 <= o < c)%Z -> (c <= 2 ^ 51)%Z ->
  inject_Z (c + 2 * o) < d -> d <= inject_Z (2 ^ 52) ->
  (Z.to_nat (Qceiling (d / inject_Z (c - o))) < fuel)%nat ->
  let result := processAudioFileInChunks fractionToString World ffprobe ffmpegRun
                  fuel path (num_of_Z c) (num_of_Z o) speed fProcess st in
  fst result = Resolved tt /\
  handlerCount (trace (snd result)) =
    (handlerCount (trace st) + Z.to_nat (Qceiling (d / inject_Z (c - o))))%nat.
Proof.
  intros Hrun Hh Hprobe Hd Hoc Hc Hlong Hmax Hfuel result. subst result.
  rewrite processAudioFileInChunks_unfold, Hprobe. cbn [duration]. rewrite Hd.
  rewrite threshold_whole by lia.
  assert (Hcond : (Num d <= num_of_Z (c + o * 2))%num = false).
  { cbn. apply negb_false_iff, Qlt_bool_iff.
    now replace (c + o * 2)%Z with (c + 2 * o)%Z by lia. }
  rewrite Hcond. cbv zeta.
  assert (Hstep : 0 < inject_Z (c - o))
    by (change 0 with (inject_Z 0); rewrite <- Zlt_Qlt; lia).
  assert (Hturns : turnsLeft d (inject_Z (c - o)) (inject_Z 0)
                   = Z.to_nat (Qceiling (d / inject_Z (c - o)))).
  { unfold turnsLeft. f_equal. apply Qceiling_comp.
    change (inject_Z 0) with 0. field. lra. }
  destruct (chunkLoop_count fractionToString World ffmpegRun fProcess path speed
              (nullish (format_bit_rate metadata) zero) c o d
              ltac:(lia) Hc Hmax Hrun Hh ltac:(lia) fuel 0%Z
              (record World (CallFfprobe path) None w st)) as (Hout & Hcount & _).
  - lia.
  - rewrite Hturns. exact Hfuel.
  - split; [exact Hout |].
    etransitivity; [exact Hcount |].
    rewrite Hturns. unfold handlerCount, handlerCalls. cbn [record trace].
    rewrite flat_map_app, length_app. cbn. lia.
Qed.

(** The count above is [ceil ((d - o) / (c - o))] exactly when the last chunk
    starts more than [o] before the end of the file; otherwise it is larger. *)
Lemma claimed_count_iff (c o d : Q) :
  0 < o -> o < c -> 0 < d ->
  (Qceiling ((d - o) / (c - o)) = Qceiling (d / (c - o))
   <-> inject_Z (Qceiling (d / (c - o)) - 1) * (c - o) + o < d) /\
  (Qceiling ((d - o) / (c - o)) <= Qceiling (d / (c - o)))%Z.
Proof.
  intros Ho Hoc Hd.
  set (s := c - o). assert (Hs : 0 < s) by (unfold s; lra).
  set (n := Qceiling (d / s)).
  pose proof (Qle_ceiling (d / s)) as Hup. fold n in Hup.
  pose proof (Qceiling_lt (d / s)) as Hdown. fold n in Hdown.
  assert (Hup' : d <= inject_Z n * s) by (apply Qdiv_le_iff; assumption).
  assert (Hdown' : inject_Z (n - 1) * s < d) by (apply Qdiv_lt_iff; assumption).
  unfold Z.sub in Hdown'. rewrite inject_Z_plus, inject_Z_opp in Hdown'.
  change (inject_Z 1) with 1 in Hdown'.
  assert (Hle : (Qceiling ((d - o) / s) <= n)%Z).
  { apply Qceiling_resp_le. unfold Qdiv. apply Qmult_le_compat_r; [lra |].
    apply Qlt_le_weak, Qinv_lt_0_compat, Hs. }
  unfold Z.sub at 1. rewrite inject_Z_plus, inject_Z_opp. change (inject_Z 1) with 1.
  split; [| exact Hle].
  split.
  - intro Heq. pose proof (Qceiling_lt ((d - o) / s)) as H. rewrite Heq in H.
    apply Qdiv_lt_iff in H; [| exact Hs].
    unfold Z.sub in H. rewrite inject_Z_plus, inject_Z_opp in H.
    change (inject_Z 1) with 1 in H. lra.
  - intro Hlast. apply Qceiling_unique.
    + apply Qdiv_lt_iff; [exact Hs | lra].
    + apply Qdiv_le_iff; [exact Hs | lra].
Qed.

(** Between one chunk and the next, in whole seconds, the end of the first
    less the overlap is the start of the second exactly when the first is not
    cut at the end of the file. *)
Lemma overlap_exact_iff_not_cut (c o d q : Z) :
  (0 <= o <= c)%Z -> (c <= 2 ^ 51)%Z -> (0 <= q <= 2 ^ 52)%Z -> (0 <= d <= 2 ^ 52)%Z ->
  num_eq (Math_min (num_of_Z q + num_of_Z c) (num_of_Z d) - num_of_Z o)%num
         (num_of_Z (q + (c - o))) = true
  <-> (q + c <= d)%Z.
Proof.
  intros Ho Hc Hq Hd. rewrite num_add_whole by lia.
  assert (Hmin : Math_min (num_of_Z (q + c)) (num_of_Z d) = num_of_Z (Z.min (q + c) d)).
  { unfold Math_min, num_of_Z. cbn [num_lt].
    destruct (Qlt_bool (inject_Z d) (inject_Z (q + c))) eqn:Hcut.
    - apply Qlt_bool_iff in Hcut. rewrite <- Zlt_Qlt in Hcut.
      now rewrite Z.min_r by lia.
    - apply Qlt_bool_false_iff in Hcut. rewrite <- Zle_Qle in Hcut.
      now rewrite Z.min_l by lia. }
  rewrite Hmin, num_sub_whole by lia.
  unfold num_of_Z. cbn [num_eq]. rewrite Qeq_bool_iff.
  unfold Qeq. cbn [inject_Z Qnum Qden]. lia.
Qed.

(** Rounding in the loop: with chunks of 0.1 s (the double nearest 0.1), no
    overlap and a file of 1 s, the sums 0.1 + 0.1 + ... drift off the tenths
    and the loop makes 11 turns, the last on [0.9999999999999999, 1]. *)
Example eleven_chunks_of_a_tenth :
  let result := runOnDisk (num_of_Z 1) 12 "a.wav" (round64 (1 # 10)) (num_of_Z 0) one
                  [] ["a.wav"] in
  fst result = Resolved tt /\
  map fst (handlerCalls (trace (snd result))) =
    [ "a.wav.segment-0-0.1.mp3"; "a.wav.segment-0.1-0.2.mp3";
      "a.wav.segment-0.2-0.30000000000000004.mp3";
      "a.wav.segment-0.30000000000000004-0.4.mp3";
      "a.wav.segment-0.4-0.5.mp3"; "a.wav.segment-0.5-0.6.mp3";
      "a.wav.segment-0.6-0.7.mp3"; "a.wav.segment-0.7-0.7999999999999999.mp3";
      "a.wav.segment-0.7999999999999999-0.8999999999999999.mp3";
      "a.wav.segment-0.8999999999999999-0.9999999999999999.mp3";
      "a.wav.segment-0.9999999999999999-1.mp3" ].
Proof.
  cbv zeta. split; vm_compute; reflexivity.
Qed.

(** C1, on a 550 s file with chunks of 300 s overlapping by 30 s.  The file
    is long enough to be chunked (550 > 300 + 2 * 30) and every call
    succeeds; the handler is invoked three times, on [0, 300], [270, 550]
    and [540, 550], where [ceil ((550 - 30) / (300 - 30))] is 2. *)
Theorem C1_three_invocations_at_550 :
  let result := runOnDisk (num_of_Z 550) 4 "a.wav" (num_of_Z 300) (num_of_Z 30) one
                  [] ["a.wav"] in
  (num_of_Z 550 <= num_of_Z 300 + num_of_Z 30 * two)%num = false /\
  fst result = Resolved tt /\
  handlerCalls (trace (snd result)) =
    [ ("a.wav.segment-0-300.mp3", true);
      ("a.wav.segment-270-550.mp3", true);
      ("a.wav.segment-540-550.mp3", true) ] /\
  handlerCount (trace (snd result)) = 3%nat /\
  Qceiling ((550 - 30) / (300 - 30)) = 2%Z.
Proof.
  cbv zeta. repeat split; vm_compute; reflexivity.
Qed.

(** C2, on the same run.  The chunks are [0, 300], [270, 550] and
    [540, 550]: the second chunk is not the final one, yet it is 280 s long
    rather than 300 s, and its end less the overlap is 520, not the start
    540 of the third. *)
Theorem C2_truncated_chunk_before_the_last_at_550 :
  let result := runOnDisk (num_of_Z 550) 4 "a.wav" (num_of_Z 300) (num_of_Z 30) one
                  [] ["a.wav"] in
  fst result = Resolved tt /\
  chunks (trace (snd result)) =
    [ (num_of_Z 0, num_of_Z 300);
      (num_of_Z 270, num_of_Z 550);
      (num_of_Z 540, num_of_Z 550) ] /\
  (num_of_Z 550 - num_of_Z 270)%num = num_of_Z 280 /\
  num_eq (num_of_Z 550 - num_of_Z 270)%num (num_of_Z 300) = false /\
  num_eq (num_of_Z 550 - num_of_Z 30)%num (num_of_Z 540) = false.
Proof.
  cbv zeta. repeat split; vm_compute; reflexivity.
Qed.




(** C8 on a run whose handler fails on the second chunk: the run rejects with
    the handler's error, and both chunk files stay on disk. *)
Lemma C8_failure_stops_the_run_witness :
  fst (runOnDisk (num_of_Z 600) 5 "a.wav" (num_of_Z 300) (num_of_Z 30) one
         ["a.wav.segment-270-570.mp3"] ["a.wav"]) = Rejected "handler failed" /\
  world (snd (runOnDisk (num_of_Z 600) 5 "a.wav" (num_of_Z 300) (num_of_Z 30) one
                ["a.wav.segment-270-570.mp3"] ["a.wav"])) =
    ["a.wav"; "a.wav.segment-0-300.mp3"; "a.wav.segment-270-570.mp3"].
Proof.
  destruct (C8_failure_stops_the_run plainFraction Disk (diskProbe (num_of_Z 600))
              diskFfmpeg (diskHandler ["a.wav.segment-270-570.mp3"])
              5 "a.wav" (num_of_Z 300) (num_of_Z 30) one ["a.wav"])
    as (_ & Hlast & Hworld).
  split.
  - refine (proj2 (Hlast
      [ {| call := CallFfprobe "a.wav"; failure := None |};
        {| call := CallSegment "a.wav"
                     (chunkSettings (num_of_Z 0) (num_of_Z 300) one);
           failure := None |};
        {| call := CallHandler "a.wav.segment-0-300.mp3" true; failure := None |};
        {| call := CallSegment "a.wav"
                     (chunkSettings (num_of_Z 270) (num_of_Z 570) one);
           failure := None |} ]
      {| call := CallHandler "a.wav.segment-270-570.mp3" true;
         failure := Some "handler failed" |}
      [] "handler failed" _ eq_refl)).
    vm_compute. reflexivity.
  - etransitivity; [exact Hworld |]. vm_compute. reflexivity.
Defined.

(** * Further properties of the code *)

(** ** The calls of a run, in order *)

Lemma chunkCalls_app (fractionToString : Q -> string) (path : string) (speed : number)
    (a b : number) (fh : option Error) (rest : list Event) :
  (fh = None \/ rest = []) ->
  chunkCalls fractionToString path speed rest ->
  chunkCalls fractionToString path speed
    ({| call := CallSegment path (chunkSettings a b speed); failure := None |}
     :: {| call := CallHandler (newPath fractionToString path (chunkSettings a b speed))
                     true;
           failure := fh |}
     :: rest).
Proof.
  intros Hfh Hrest. cbn [chunkCalls call failure].
  exists a, b. repeat split; assumption.
Qed.

Section CallsOfTheLoop.

Variable fractionToString : Q -> string.
Variable World : Type.
Variable ffmpegRun : FfmpegCommand -> World -> option Error * World.
Variable fProcess : Handler World.

(** The loop only appends to the trace, and what it appends is a sequence of
    extraction-handler pairs. *)
Lemma chunkLoop_calls (fuel : nat) (path : string) (chunkSecs overlapSecs speed : number)
    (info : AudioFileInfo) :
  forall (start : number) (st : State World),
  exists added : list Event,
    trace (snd (chunkLoop fractionToString World ffmpegRun fuel path chunkSecs
                  overlapSecs speed fProcess info start st)) =
      (trace st ++ added)%list /\
    chunkCalls fractionToString path speed added /\
    (fst (chunkLoop fractionToString World ffmpegRun fuel path chunkSecs
            overlapSecs speed fProcess info start st) = Resolved tt ->
     noFailure added).
Proof.
  assert (Hnil : noFailure []) by (intros ev []).
  induction fuel as [| fuel IH]; intros start st.
  - exists []. cbn. rewrite app_nil_r. repeat split; [discriminate].
  - rewrite chunkLoop_turn.
    destruct (start < duration info)%num.
    2:{ exists []. cbn. rewrite app_nil_r. repeat split. intros _. exact Hnil. }
    cbv zeta.
    destruct (ffmpegRun _ (world st)) as [[err |] w].
    + eexists [_]. cbn [fst snd record trace]. split; [reflexivity |].
      split; [| discriminate].
      cbn [chunkCalls call failure]. eexists _, _. split; [reflexivity | discriminate].
    + destruct (fProcess _ true w) as [[err |] w'].
      * eexists [_; _]. cbn [fst snd record trace]. rewrite <- app_assoc.
        split; [reflexivity |]. split; [| discriminate].
        apply chunkCalls_app; [now right | exact I].
      * match goal with
        | |- context [chunkLoop _ _ _ fuel _ _ _ _ _ _ ?q ?s] =>
            destruct (IH q s) as (added & Htrace & Hcalls & Hres)
        end.
        eexists (_ :: _ :: added). rewrite Htrace. cbn [record trace].
        rewrite <- !app_assoc. split; [reflexivity |].
        split; [apply chunkCalls_app; [now left | exact Hcalls] |].
        intros Hok ev [<- | [<- | Hin]]; [reflexivity | reflexivity |].
        now apply (Hres Hok).
Qed.

End CallsOfTheLoop.

Lemma by_pairs (P : list Event -> Prop) :
  P [] -> (forall ev, P [ev]) -> (forall ev h rest, P rest -> P (ev :: h :: rest)) ->
  forall tr, P tr.
Proof.
  intros Hnil Hone Hpair tr.
  assert (H : P tr /\ forall ev, P (ev :: tr)).
  { induction tr as [| x tr [IH1 IH2]].
    - split; [exact Hnil | exact Hone].
    - split; [apply IH2 | intro ev; apply Hpair, IH1]. }
  exact (proj1 H).
Qed.

(** In a sequence of chunk calls the handler is invoked exactly on the
    outputs of the extractions that succeeded, in order and flagged
    temporary. *)
Lemma chunkCalls_handlerCalls (fractionToString : Q -> string) (path : string)
    (speed : number) (tr : list Event) :
  chunkCalls fractionToString path speed tr ->
  handlerCalls tr = map (fun file => (file, true)) (extracted fractionToString tr).
Proof.
  induction tr as [| ev | ev h rest IH] using by_pairs.
  - reflexivity.
  - intros (a & b & Hcall & Hfail). unfold handlerCalls, extracted.
    cbn [flat_map]. rewrite Hcall.
    destruct (failure ev); [reflexivity | now contradiction Hfail].
  - intros (a & b & Hcall & Hok & Hh & _ & Hrest).
    specialize (IH Hrest). unfold handlerCalls, extracted in *.
    cbn [flat_map]. rewrite Hcall, Hok, Hh. cbn [app map]. rewrite IH. reflexivity.
Qed.

(** Every extraction of a sequence of chunk calls is made on [path] with the
    settings of [chunkSettings]. *)
Lemma chunkCalls_segmentCalls (fractionToString : Q -> string) (path : string)
    (speed : number) (tr : list Event) :
  chunkCalls fractionToString path speed tr ->
  forall p settings, In (p, settings) (segmentCalls tr) ->
    p = path /\ settings = chunkSettings (startSecs settings) (endSecs settings) speed.
Proof.
  induction tr as [| ev | ev h rest IH] using by_pairs.
  - intros _ p settings [].
  - intros (a & b & Hcall & _) p settings. unfold segmentCalls. cbn [flat_map].
    rewrite Hcall. intros [H | []]. injection H as <- <-. split; reflexivity.
  - intros (a & b & Hcall & _ & Hh & _ & Hrest) p settings.
    unfold segmentCalls in *. cbn [flat_map]. rewrite Hcall, Hh. cbn [app].
    intros [H | Hin]; [| now apply (IH Hrest)].
    injection H as <- <-. split; reflexivity.
Qed.

Section CallsOfTheRun.

Variable fractionToString : Q -> string.
Variable World : Type.
Variable ffprobe : string -> World -> (Error + FfprobeFormat) * World.
Variable ffmpegRun : FfmpegCommand -> World -> option Error * World.
Variable fProcess : Handler World.

(** The calls of a whole run: the probe, then nothing if it failed, else
    either the one handler invocation on the original file or the calls of
    the chunking loop. *)
Lemma processAudioFileInChunks_calls (fuel : nat) (path : string)
    (chunkSecs overlapSecs speed : number) (w0 : World) :
  exists (probeFailure : option Error) (rest : list Event),
    trace (snd (processAudioFileInChunks fractionToString World ffprobe ffmpegRun
                  fuel path chunkSecs overlapSecs speed fProcess
                  {| world := w0; trace := [] |})) =
      {| call := CallFfprobe path; failure := probeFailure |} :: rest /\
    ((probeFailure <> None /\ rest = []) \/
     (probeFailure = None /\
      ((exists handlerFailure,
          rest = [{| call := CallHandler path false; failure := handlerFailure |}]) \/
       chunkCalls fractionToString path speed rest))).
Proof.
  rewrite processAudioFileInChunks_unfold. cbn [world].
  destruct (ffprobe path w0) as [[err | metadata] w].
  - exists (Some err), []. split; [reflexivity |]. left. split; [discriminate | reflexivity].
  - cbv zeta. destruct (_ <= _)%num.
    + destruct (fProcess path false w) as [[err |] w'];
        eexists None, [_]; (split; [reflexivity |]); right; (split; [reflexivity |]);
        left; eexists; reflexivity.
    + match goal with
      | |- context [chunkLoop _ _ _ fuel _ ?cs ?os _ _ ?i ?q ?s] =>
          destruct (chunkLoop_calls fractionToString World ffmpegRun fProcess
                      fuel path cs os speed i q s) as (added & Htrace & Hcalls & _)
      end.
      exists None, added. rewrite Htrace. split; [reflexivity |].
      right. split; [reflexivity |]. right. exact Hcalls.
Qed.

End CallsOfTheRun.

(** X1.  The handler is invoked on the output of every extraction that
    succeeded, and on nothing else.  Either it is invoked once on the
    original path with [isTemporary = false] and no extraction is made, or
    its invocations are exactly the output paths of the extractions that
    succeeded, in the order of their extraction and with
    [isTemporary = true] (none when the probe fails), whatever the calls do
    and whatever the fuel.  The output of an extraction that failed is not
    among them: the handler is not told of what such a call left behind. *)
Theorem handler_is_invoked_on_every_successful_extraction
    (fractionToString : Q -> string) (World : Type)
    (ffprobe : string -> World -> (Error + FfprobeFormat) * World)
    (ffmpegRun : FfmpegCommand -> World -> option Error * World)
    (fProcess : Handler World)
    (fuel : nat) (path : string) (chunkSecs overlapSecs speed : number) (w0 : World) :
  let tr := trace (snd (processAudioFileInChunks fractionToString World ffprobe
                          ffmpegRun fuel path chunkSecs overlapSecs speed fProcess
                          {| world := w0; trace := [] |})) in
  (handlerCalls tr = [(path, false)] /\ segmentCalls tr = []) \/
  handlerCalls tr = map (fun file => (file, true)) (extracted fractionToString tr).
Proof.
  cbv zeta.
  destruct (processAudioFileInChunks_calls fractionToString World ffprobe ffmpegRun
              fProcess fuel path chunkSecs overlapSecs speed w0)
    as (pf & rest & -> & [[_ ->] | [-> [[hf ->] | Hcalls]]]).
  - right. unfold handlerCalls, extracted. cbn. destruct pf; reflexivity.
  - left. split; reflexivity.
  - right. apply (chunkCalls_handlerCalls fractionToString path speed) in Hcalls.
    unfold handlerCalls, extracted in *. cbn [flat_map call failure app]. exact Hcalls.
Qed.

(** X3.  Every extraction of a run is made on the input path, in mono, at the
    voice bitrate 22050 and with the caller's playback speed: its command has
    exactly one [audioChannels] call, [audioChannels(1)], exactly one
    [audioBitrate] call, [audioBitrate(22050)], and the tempo filter that the
    speed alone decides. *)
Theorem every_chunk_is_mono_at_voice_bitrate
    (fractionToString : Q -> string) (World : Type)
    (ffprobe : string -> World -> (Error + FfprobeFormat) * World)
    (ffmpegRun : FfmpegCommand -> World -> option Error * World)
    (fProcess : Handler World)
    (fuel : nat) (path : string) (chunkSecs overlapSecs speed : number) (w0 : World)
    (p : string) (settings : AudioSegmentSettings) :
  In (p, settings)
     (segmentCalls
        (trace (snd (processAudioFileInChunks fractionToString World ffprobe
                       ffmpegRun fuel path chunkSecs overlapSecs speed fProcess
                       {| world := w0; trace := [] |})))) ->
  p = path /\
  toMono settings = Some true /\
  bitrateConversion settings = Some TARGET_VOICE_TO_TEXT_BITRATE /\
  playbackSpeed settings = Some speed /\
  input (cmd fractionToString p settings) = path /\
  filter isAudioChannels (options (cmd fractionToString p settings)) =
    [audioChannels one] /\
  filter isAudioBitrate (options (cmd fractionToString p settings)) =
    [audioBitrate TARGET_VOICE_TO_TEXT_BITRATE] /\
  filter isAudioFilter (options (cmd fractionToString p settings)) =
    filter isAudioFilter
      (options (cmd fractionToString path (settingsWithSpeed (Some speed)))).
Proof.
  destruct (processAudioFileInChunks_calls fractionToString World ffprobe ffmpegRun
              fProcess fuel path chunkSecs overlapSecs speed w0)
    as (pf & rest & -> & [[_ ->] | [-> [[hf ->] | Hcalls]]]);
    try (intros []).
  unfold segmentCalls. cbn [flat_map call app]. fold (segmentCalls rest). intro Hin.
  destruct (chunkCalls_segmentCalls fractionToString path speed rest Hcalls
              p settings Hin) as [-> Hsettings].
  rewrite Hsettings. cbn [chunkSettings toMono bitrateConversion playbackSpeed].
  repeat split.
  - rewrite cmd_options, !filter_app.
    cbn [toMono bitrateConversion truthy_bool].
    destruct (_ != _)%num; reflexivity.
  - rewrite cmd_options, !filter_app.
    cbn [toMono bitrateConversion truthy_bool].
    destruct (_ != _)%num; reflexivity.
  - rewrite !atempo_filter_shape. reflexivity.
Qed.

(** [every_chunk_is_mono_at_voice_bitrate] on the second chunk of the 600 s
    file. *)
Lemma every_chunk_is_mono_at_voice_bitrate_witness :
  filter isAudioChannels
    (options (cmd plainFraction "a.wav"
                (chunkSettings (num_of_Z 270) (num_of_Z 570) two))) =
    [audioChannels one] /\
  filter isAudioBitrate
    (options (cmd plainFraction "a.wav"
                (chunkSettings (num_of_Z 270) (num_of_Z 570) two))) =
    [audioBitrate TARGET_VOICE_TO_TEXT_BITRATE].
Proof.
  destruct (every_chunk_is_mono_at_voice_bitrate plainFraction Disk
              (diskProbe (num_of_Z 600)) diskFfmpeg (diskHandler [])
              4 "a.wav" (num_of_Z 300) (num_of_Z 30) two ["a.wav"]
              "a.wav" (chunkSettings (num_of_Z 270) (num_of_Z 570) two))
    as (_ & _ & _ & _ & _ & Hmono & Hrate & _).
  - vm_compute. right. left. reflexivity.
  - split; [exact Hmono | exact Hrate].
Defined.

(** ** At least one invocation *)

Lemma handlerCount_app (tr added : list Event) :
  handlerCount (tr ++ added) = (handlerCount tr + handlerCount added)%nat.
Proof.
  unfold handlerCount, handlerCalls. rewrite flat_map_app, length_app. reflexivity.
Qed.

Lemma nonNegative_threshold (T : number) : nonNegative T -> (zero <= T)%num = true.
Proof.
  destruct T as [| n | t]; cbn; [tauto | now intros -> |].
  intro Ht. apply negb_true_iff, Qlt_bool_false_iff. unfold inject_Z. lra.
Qed.

(** Above a threshold that is not negative lie positive durations only. *)
Lemma above_threshold_is_positive (D T : number) :
  (zero <= T)%num = true -> D <> NaN -> (D <= T)%num = false -> (zero < D)%num = true.
Proof.
  intros HT HD Hlong.
  destruct T as [| [|] | t]; try discriminate.
  - destruct D as [| [|] | d]; [now contradiction HD | discriminate ..].
  - cbn in HT. apply negb_true_iff, Qlt_bool_false_iff in HT.
    destruct D as [| [|] | d]; [now contradiction HD | discriminate | reflexivity |].
    cbn in Hlong |- *. apply negb_false_iff, Qlt_bool_iff in Hlong.
    apply Qlt_bool_iff. lra.
Qed.

(** X7.  The docstring's "There will always be at least one invocation", as the
    code has it: when the threshold [chunkSecs + 2 * overlapSecs], as the
    code computes it, is at least 0 and the probed duration is not NaN, a run
    that resolves has invoked the handler at least once.  The computed
    threshold is at least 0 whenever the real one is, for all doubles
    ([threshold_of_doubles] below). *)
Theorem resolved_run_invokes_the_handler
    (fractionToString : Q -> string) (World : Type)
    (ffprobe : string -> World -> (Error + FfprobeFormat) * World)
    (ffmpegRun : FfmpegCommand -> World -> option Error * World)
    (fProcess : Handler World)
    (fuel : nat) (path : string) (chunkSecs overlapSecs speed : number) (w0 : World)
    (metadata : FfprobeFormat) (w : World) :
  (zero <= chunkSecs + overlapSecs * two)%num = true ->
  ffprobe path w0 = (inr metadata, w) ->
  nullish (format_duration metadata) zero <> NaN ->
  fst (processAudioFileInChunks fractionToString World ffprobe ffmpegRun
         fuel path chunkSecs overlapSecs speed fProcess {| world := w0; trace := [] |})
    = Resolved tt ->
  (1 <= handlerCount
          (trace (snd (processAudioFileInChunks fractionToString World ffprobe
                         ffmpegRun fuel path chunkSecs overlapSecs speed fProcess
                         {| world := w0; trace := [] |}))))%nat.
Proof.
  intros Hthreshold Hprobe Hnan.
  rewrite processAudioFileInChunks_unfold. cbn [world]. rewrite Hprobe. cbn [duration].
  set (D := nullish (format_duration metadata) zero) in *.
  destruct (D <= chunkSecs + overlapSecs * two)%num eqn:Hshort.
  - destruct (fProcess path false w) as [[err |] w']; intros _; cbn; lia.
  - cbv zeta. fold D.
    pose proof (above_threshold_is_positive D _ Hthreshold Hnan Hshort) as Hpos.
    destruct fuel as [| fuel]; [discriminate |].
    rewrite chunkLoop_turn. cbn [duration]. rewrite Hpos. cbv zeta.
    destruct (ffmpegRun _ _) as [[err |] w1]; [discriminate |].
    destruct (fProcess _ true w1) as [[err |] w2]; [discriminate |].
    intros _.
    match goal with
    | |- context [chunkLoop _ _ _ fuel _ ?cs ?os _ _ ?i ?q ?s] =>
        destruct (chunkLoop_calls fractionToString World ffmpegRun fProcess
                    fuel path cs os speed i q s) as (added & -> & _)
    end.
    rewrite handlerCount_app, handlerCount_handler. lia.
Qed.

(** X7 on whole and fractional seconds alike: whenever [chunkSecs] and
    [overlapSecs] are rationals that are not negative, the computed threshold
    is not negative. *)
Lemma threshold_is_not_negative (c o : Q) :
  0 <= c -> 0 <= o -> (zero <= Num c + Num o * two)%num = true.
Proof.
  intros Hc Ho. apply nonNegative_threshold, num_add_nonNegative; [exact Hc |].
  cbn [num_mul two num_of_Z]. apply round64_nonNegative. unfold inject_Z.
  apply Qmult_le_0_compat; [exact Ho | lra].
Qed.

(** And whenever they are doubles with [chunkSecs + 2 * overlapSecs >= 0]:
    the doubling is exact or overflows, and rounding the sum keeps its
    sign. *)
Lemma threshold_of_doubles (c o : Q) :
  isDouble c -> isDouble o -> 0 <= c + 2 * o ->
  (zero <= Num c + Num o * two)%num = true.
Proof.
  intros Hc Ho Hsum. cbn [num_mul two num_of_Z]. change (inject_Z 2) with 2.
  destruct (double_twice o Ho) as [Hd | [Hbig | Hsmall]].
  - destruct (round64_double _ Hd) as (r & -> & Hr).
    apply nonNegative_threshold. cbn [num_add]. apply round64_nonNegative.
    rewrite Hr. lra.
  - rewrite (round64_overflow _ Hbig). reflexivity.
  - exfalso. pose proof (double_bounded c Hc) as Hlt.
    revert Hsmall Hlt. generalize (2 ^ 1024). intros t Hsmall Hlt. lra.
Qed.

(** [resolved_run_invokes_the_handler] on the 600 s file of the scenario. *)
Lemma resolved_run_invokes_the_handler_witness :
  (1 <= handlerCount
          (trace (snd (runOnDisk (num_of_Z 600) 4 "a.wav" (num_of_Z 300) (num_of_Z 30)
                         one [] ["a.wav"]))))%nat.
Proof.
  apply (resolved_run_invokes_the_handler plainFraction Disk
           (diskProbe (num_of_Z 600)) diskFfmpeg (diskHandler [])
           4 "a.wav" (num_of_Z 300) (num_of_Z 30) one ["a.wav"]
           {| format_duration := Some (num_of_Z 600); format_bit_rate := None |}
           ["a.wav"]).
  - vm_compute. reflexivity.
  - reflexivity.
  - discriminate.
  - vm_compute. reflexivity.
Defined.

(** X8.  When the probed duration is neither at most [chunkSecs + 2 * overlapSecs]
    nor above 0 (a NaN duration, or a duration of at most 0 with a negative
    threshold), the run resolves after the probe alone: the handler is not
    invoked and nothing is extracted. *)
Theorem no_invocation_without_positive_duration
    (fractionToString : Q -> string) (World : Type)
    (ffprobe : string -> World -> (Error + FfprobeFormat) * World)
    (ffmpegRun : FfmpegCommand -> World -> option Error * World)
    (fProcess : Handler World)
    (fuel : nat) (path : string) (chunkSecs overlapSecs speed : number)
    (st : State World) (metadata : FfprobeFormat) (w : World) :
  ffprobe path (world st) = (inr metadata, w) ->
  (nullish (format_duration metadata) zero <= chunkSecs + overlapSecs * two)%num
    = false ->
  (zero < nullish (format_duration metadata) zero)%num = false ->
  processAudioFileInChunks fractionToString World ffprobe ffmpegRun
    (S fuel) path chunkSecs overlapSecs speed fProcess st =
    (Resolved tt,
     {| world := w;
        trace := (trace st ++ [{| call := CallFfprobe path; failure := None |}])%list |}).
Proof.
  intros Hprobe Hlong Hpos.
  rewrite processAudioFileInChunks_unfold, Hprobe. cbn [duration]. rewrite Hlong.
  cbv zeta. rewrite chunkLoop_turn. cbn [duration]. rewrite Hpos. reflexivity.
Qed.

(** [no_invocation_without_positive_duration] on a file whose duration is
    probed as NaN. *)
Lemma no_invocation_without_positive_duration_witness :
  runOnDisk NaN 1 "a.wav" (num_of_Z 300) (num_of_Z 30) one [] ["a.wav"] =
    (Resolved tt,
     {| world := ["a.wav"];
        trace := [{| call := CallFfprobe "a.wav"; failure := None |}] |}).
Proof.
  apply (no_invocation_without_positive_duration plainFraction Disk
           (diskProbe NaN) diskFfmpeg (diskHandler [])
           0 "a.wav" (num_of_Z 300) (num_of_Z 30) one (freshState ["a.wav"])
           {| format_duration := Some NaN; format_bit_rate := None |} ["a.wav"]);
    reflexivity.
Defined.

(** X9.  A file whose metadata has no duration is handled as a file of 0 seconds:
    for [chunkSecs] and [overlapSecs] that are not negative, the handler is
    invoked once, on the original path with [isTemporary = false], and
    nothing is extracted. *)
Theorem missing_duration_is_a_short_file
    (fractionToString : Q -> string) (World : Type)
    (ffprobe : string -> World -> (Error + FfprobeFormat) * World)
    (ffmpegRun : FfmpegCommand -> World -> option Error * World)
    (fProcess : Handler World)
    (fuel : nat) (path : string) (c o : Q) (speed : number)
    (w0 : World) (metadata : FfprobeFormat) (w : World) :
  0 <= c -> 0 <= o ->
  ffprobe path w0 = (inr metadata, w) ->
  format_duration metadata = None ->
  let tr := trace (snd (processAudioFileInChunks fractionToString World ffprobe
                          ffmpegRun fuel path (Num c) (Num o) speed fProcess
                          {| world := w0; trace := [] |})) in
  handlerCalls tr = [(path, false)] /\ segmentCalls tr = [].
Proof.
  intros Hc Ho Hprobe Hmissing. cbv zeta.
  rewrite processAudioFileInChunks_unfold. cbn [world]. rewrite Hprobe, Hmissing.
  cbn [duration nullish].
  rewrite (threshold_is_not_negative c o Hc Ho).
  destruct (fProcess path false w) as [[err |] w']; split; reflexivity.
Qed.

(** [missing_duration_is_a_short_file] with chunks of 300 s overlapping by 30 s. *)
Lemma missing_duration_is_a_short_file_witness :
  handlerCalls
    (trace (snd (processAudioFileInChunks plainFraction Disk bareProbe diskFfmpeg
                   3 "a.wav" (num_of_Z 300) (num_of_Z 30) one (diskHandler [])
                   (freshState ["a.wav"])))) = [("a.wav", false)].
Proof.
  apply (missing_duration_is_a_short_file plainFraction Disk bareProbe diskFfmpeg
           (diskHandler []) 3 "a.wav" (inject_Z 300) (inject_Z 30) one ["a.wav"]
           {| format_duration := None; format_bit_rate := None |} ["a.wav"]).
  - unfold inject_Z. lra.
  - unfold inject_Z. lra.
  - reflexivity.
  - reflexivity.
Defined.

(** ** Where the chunks lie *)

Lemma chunks_app (tr added : list Event) :
  chunks (tr ++ added) = (chunks tr ++ chunks added)%list.
Proof.
  unfold chunks. apply flat_map_app.
Qed.

Lemma chunks_segment {World : Type} (st : State World) (path : string)
    (a b speed : number) (f : option Error) (w : World) :
  chunks (trace (record World (CallSegment path (chunkSettings a b speed)) f w st)) =
    (chunks (trace st) ++ [(a, b)])%list.
Proof.
  cbn [record trace]. rewrite chunks_app. reflexivity.
Qed.

Lemma chunks_handler {World : Type} (st : State World) (path : string)
    (isTemporary : bool) (f : option Error) (w : World) :
  chunks (trace (record World (CallHandler path isTemporary) f w st)) =
    chunks (trace st).
Proof.
  cbn [record trace]. rewrite chunks_app. cbn. apply app_nil_r.
Qed.

(** The chunk of one turn, in whole seconds. *)
Lemma turn_chunk_within (c q : Z) (d : Q) :
  (0 < c)%Z -> (0 <= q)%Z -> inject_Z q < d ->
  chunkWithin (inject_Z c) d (num_of_Z q, Math_min (num_of_Z (q + c)) (Num d)).
Proof.
  intros Hc Hq Hd. unfold num_of_Z. cbn [Math_min num_lt].
  rewrite Zlt_Qlt in Hc. rewrite Zle_Qle in Hq. rewrite inject_Z_plus.
  change (inject_Z 0) with 0 in *.
  destruct (Qlt_bool d (inject_Z q + inject_Z c)) eqn:Hcut; cbn [chunkWithin].
  - apply Qlt_bool_iff in Hcut. repeat split; lra.
  - apply Qlt_bool_false_iff in Hcut. repeat split; lra.
Qed.

Lemma turn_chunk_covers (c q : Z) (d t : Q) :
  inject_Z q <= t -> t <= d -> t <= inject_Z (q + c) ->
  inChunk t (num_of_Z q, Math_min (num_of_Z (q + c)) (Num d)).
Proof.
  intros Hq Hd Hc. unfold num_of_Z. cbn [Math_min num_lt].
  destruct (Qlt_bool d (inject_Z (q + c))); cbn [inChunk]; split; assumption.
Qed.

Section ChunkGeometry.

Variable fractionToString : Q -> string.
Variable World : Type.
Variable ffmpegRun : FfmpegCommand -> World -> option Error * World.
Variable fProcess : Handler World.

Variable path : string.
Variable speed : number.
Variable bitRate : number.

(** Whole seconds, as in [Chunking]. *)
Variables c o : Z.
Variable d : Q.
Hypothesis overlap_range : (0 <= o <= c)%Z.
Hypothesis chunk_range : (c <= 2 ^ 51)%Z.
Hypothesis duration_range : d <= inject_Z (2 ^ 52).

Local Notation "'loopFrom' fuel q" :=
  (chunkLoop fractionToString World ffmpegRun fuel path (num_of_Z c) (num_of_Z o)
     speed fProcess {| duration := Num d; bit_rate := bitRate |} (num_of_Z q))
  (at level 10, fuel at level 9, q at level 9, only parsing).

(** Whatever the calls do, the loop only extracts chunks that lie within the
    file, are not empty and are at most [chunkSecs] long. *)
Lemma chunkLoop_chunks_within :
  (0 < c)%Z ->
  forall (fuel : nat) (q : Z) (st : State World),
    (0 <= q)%Z ->
    Forall (chunkWithin (inject_Z c) d) (chunks (trace st)) ->
    Forall (chunkWithin (inject_Z c) d) (chunks (trace (snd (loopFrom fuel q st)))).
Proof.
  intros Hc. induction fuel as [| fuel IH]; intros q st Hq Hst; [exact Hst |].
  rewrite chunkLoop_turn. cbn [duration].
  change (num_of_Z q < Num d)%num with (Qlt_bool (inject_Z q) d).
  destruct (Qlt_bool (inject_Z q) d) eqn:Hlt; [| exact Hst].
  apply Qlt_bool_iff in Hlt. cbv zeta.
  destruct (whole_turn c o d overlap_range chunk_range duration_range q Hq Hlt)
    as [Hend Hnext].
  rewrite Hend, Hnext.
  assert (Hnew : Forall (chunkWithin (inject_Z c) d)
                   (chunks (trace st)
                      ++ [(num_of_Z q, Math_min (num_of_Z (q + c)) (Num d))])).
  { apply Forall_app. split; [exact Hst |].
    constructor; [now apply turn_chunk_within | constructor]. }
  destruct (ffmpegRun _ (world st)) as [[err |] w].
  - cbn [snd]. rewrite chunks_segment. exact Hnew.
  - destruct (fProcess _ true w) as [[err |] w'].
    + cbn [snd]. rewrite chunks_handler, chunks_segment. exact Hnew.
    + apply IH; [lia |]. rewrite chunks_handler, chunks_segment. exact Hnew.
Qed.

(** When the loop resolves, every instant from [startSecs] to the end of the
    file lies in one of the chunks extracted. *)
Lemma chunkLoop_covers :
  forall (fuel : nat) (q : Z) (st : State World),
    (0 <= q)%Z ->
    fst (loopFrom fuel q st) = Resolved tt ->
    forall t : Q, inject_Z q <= t -> t <= d -> inject_Z q < d ->
      Exists (inChunk t) (chunks (trace (snd (loopFrom fuel q st)))).
Proof.
  induction fuel as [| fuel IH]; intros q st Hq; [discriminate |].
  rewrite chunkLoop_turn. cbn [duration].
  change (num_of_Z q < Num d)%num with (Qlt_bool (inject_Z q) d).
  destruct (Qlt_bool (inject_Z q) d) eqn:Hlt.
  2:{ apply Qlt_bool_false_iff in Hlt. intros _ t _ _ Hqd. lra. }
  apply Qlt_bool_iff in Hlt. cbv zeta.
  destruct (whole_turn c o d overlap_range chunk_range duration_range q Hq Hlt)
    as [Hend Hnext].
  rewrite Hend, Hnext.
  destruct (ffmpegRun _ (world st)) as [[err |] w]; [discriminate |].
  destruct (fProcess _ true w) as [[err |] w']; [discriminate |].
  intros Hres t Hqt Htd _.
  destruct (Qlt_le_dec (inject_Z (q + c)) t) as [Hfar | Hnear].
  - assert (Hstep : inject_Z (q + (c - o)) <= inject_Z (q + c))
      by (rewrite <- Zle_Qle; lia).
    apply (IH (q + (c - o))%Z _ ltac:(lia) Hres t); lra.
  - match goal with
    | |- context [chunkLoop _ _ _ fuel _ ?cs ?os _ _ ?i ?q' ?s] =>
        destruct (chunkLoop_calls fractionToString World ffmpegRun fProcess
                    fuel path cs os speed i q' s) as (added & -> & _)
    end.
    rewrite chunks_app, chunks_handler, chunks_segment.
    apply Exists_app. left. apply Exists_app. right.
    constructor. now apply turn_chunk_covers.
Qed.

End ChunkGeometry.

(** X4.  Whatever the calls do and whatever the fuel: when [chunkSecs] and
    [overlapSecs] are whole seconds with [0 <= overlapSecs <= chunkSecs],
    [0 < chunkSecs <= 2^51], every chunk a run extracts from a file of
    [d <= 2^52] seconds starts at or after 0, ends at or before [d], is not
    empty and is at most [chunkSecs] long. *)
Theorem every_chunk_lies_within_the_file
    (fractionToString : Q -> string) (World : Type)
    (ffprobe : string -> World -> (Error + FfprobeFormat) * World)
    (ffmpegRun : FfmpegCommand -> World -> option Error * World)
    (fProcess : Handler World)
    (fuel : nat) (path : string) (c o : Z) (d : Q) (speed : number) (w0 : World)
    (metadata : FfprobeFormat) (w : World) :
  (0 < c <= 2 ^ 51)%Z -> (0 <= o <= c)%Z ->
  ffprobe path w0 = (inr metadata, w) ->
  nullish (format_duration metadata) zero = Num d ->
  d <= inject_Z (2 ^ 52) ->
  Forall (chunkWithin (inject_Z c) d)
    (chunks (trace (snd (processAudioFileInChunks fractionToString World ffprobe
                           ffmpegRun fuel path (num_of_Z c) (num_of_Z o) speed fProcess
                           {| world := w0; trace := [] |})))).
Proof.
  intros Hc Hoc Hprobe Hd Hmax.
  rewrite processAudioFileInChunks_unfold. cbn [world]. rewrite Hprobe.
  cbn [duration]. rewrite Hd.
  destruct (_ <= _)%num.
  - destruct (fProcess path false w) as [[err |] w']; constructor.
  - cbv zeta.
    apply (chunkLoop_chunks_within fractionToString World ffmpegRun fProcess path speed
             _ c o d); try lia; try assumption.
    constructor.
Qed.

(** [every_chunk_lies_within_the_file] on the 550 s file. *)
Lemma every_chunk_lies_within_the_file_witness :
  Forall (chunkWithin (inject_Z 300) (inject_Z 550))
    [ (num_of_Z 0, num_of_Z 300);
      (num_of_Z 270, num_of_Z 550);
      (num_of_Z 540, num_of_Z 550) ].
Proof.
  apply (every_chunk_lies_within_the_file plainFraction Disk
           (diskProbe (num_of_Z 550)) diskFfmpeg (diskHandler [])
           4 "a.wav" 300 30 (inject_Z 550) one ["a.wav"]
           {| format_duration := Some (num_of_Z 550); format_bit_rate := None |}
           ["a.wav"]).
  - lia.
  - lia.
  - reflexivity.
  - reflexivity.
  - rewrite <- Zle_Qle. lia.
Defined.

(** X6.  No part of a chunked file is left out: when [chunkSecs] and
    [overlapSecs] are whole seconds with [0 <= overlapSecs <= chunkSecs <=
    2^51], the file is long enough to be chunked and at most 2^52 seconds
    long, and the run resolves, every instant from 0 to the duration lies in
    one of the chunks extracted, whatever the calls do. *)
Theorem resolved_run_covers_the_file
    (fractionToString : Q -> string) (World : Type)
    (ffprobe : string -> World -> (Error + FfprobeFormat) * World)
    (ffmpegRun : FfmpegCommand -> World -> option Error * World)
    (fProcess : Handler World)
    (fuel : nat) (path : string) (c o : Z) (d : Q) (speed : number) (w0 : World)
    (metadata : FfprobeFormat) (w : World) (t : Q) :
  (0 <= o <= c)%Z -> (c <= 2 ^ 51)%Z ->
  ffprobe path w0 = (inr metadata, w) ->
  nullish (format_duration metadata) zero = Num d ->
  inject_Z (c + 2 * o) < d -> d <= inject_Z (2 ^ 52) ->
  fst (processAudioFileInChunks fractionToString World ffprobe ffmpegRun
         fuel path (num_of_Z c) (num_of_Z o) speed fProcess
         {| world := w0; trace := [] |})
    = Resolved tt ->
  0 <= t -> t <= d ->
  Exists (inChunk t)
    (chunks (trace (snd (processAudioFileInChunks fractionToString World ffprobe
                           ffmpegRun fuel path (num_of_Z c) (num_of_Z o) speed fProcess
                           {| world := w0; trace := [] |})))).
Proof.
  intros Hoc Hc Hprobe Hd Hlong Hmax.
  rewrite processAudioFileInChunks_unfold. cbn [world]. rewrite Hprobe.
  cbn [duration]. rewrite Hd.
  rewrite threshold_whole by lia.
  assert (Hcond : (Num d <= num_of_Z (c + o * 2))%num = false).
  { cbn. apply negb_false_iff, Qlt_bool_iff.
    now replace (c + o * 2)%Z with (c + 2 * o)%Z by lia. }
  rewrite Hcond. cbv zeta. intros Hres Ht0 Htd.
  assert (Hpos : inject_Z 0 < d).
  { eapply Qle_lt_trans; [| exact Hlong]. rewrite <- Zle_Qle. lia. }
  apply (chunkLoop_covers fractionToString World ffmpegRun fProcess path speed
           _ c o d Hoc Hc Hmax fuel 0%Z _ ltac:(lia) Hres t);
    [exact Ht0 | exact Htd | exact Hpos].
Qed.

(** [resolved_run_covers_the_file] at second 545 of the 550 s file. *)
Lemma resolved_run_covers_the_file_witness :
  Exists (inChunk 545)
    [ (num_of_Z 0, num_of_Z 300);
      (num_of_Z 270, num_of_Z 550);
      (num_of_Z 540, num_of_Z 550) ].
Proof.
  apply (resolved_run_covers_the_file plainFraction Disk
           (diskProbe (num_of_Z 550)) diskFfmpeg (diskHandler [])
           4 "a.wav" 300 30 (inject_Z 550) one ["a.wav"]
           {| format_duration := Some (num_of_Z 550); format_bit_rate := None |}
           ["a.wav"] 545).
  - lia.
  - lia.
  - reflexivity.
  - reflexivity.
  - rewrite <- Zlt_Qlt. lia.
  - rewrite <- Zle_Qle. lia.
  - vm_compute. reflexivity.
  - lra.
  - unfold inject_Z. lra.
Defined.

(** ** The recorder's console and the player *)

Lemma micRun_log (outPath : string) (evs : list MicEvent) (r : Recorder) :
  console (fold_left (micStep outPath) evs r) =
    (console r ++ flat_map consoleLines evs)%list /\
  kills (fold_left (micStep outPath) evs r) =
    (kills r + List.length (filter isStop evs))%nat /\
  spawned (fold_left (micStep outPath) evs r) = spawned r.
Proof.
  revert r. induction evs as [| ev evs IH]; intro r.
  - cbn. rewrite app_nil_r. repeat split. lia.
  - cbn [fold_left]. destruct (IH (micStep outPath r ev)) as (Hc & Hk & Hs).
    rewrite Hc, Hk, Hs.
    destruct ev; cbn [micStep console kills spawned flat_map consoleLines filter isStop
                      List.length app]; rewrite <- ?app_assoc; repeat split; lia.
Qed.

(** X13.  Whatever happens to a recorder: its console shows the stderr data of the
    capture process and one exit line per 'close', in order, and nothing for
    [fStop]; each [fStop] call sends one kill; and no process is spawned
    beyond the two silencing commands and [sox], whose last argument is the
    output path. *)
Theorem recorder_console_and_kills (outPath : string) (evs : list MicEvent) :
  console (micRun outPath evs) = flat_map consoleLines evs /\
  kills (micRun outPath evs) = List.length (filter isStop evs) /\
  spawned (micRun outPath evs) =
    (stopPlayingMusic ++
     [("sox", ["-d"; "-t"; "mp3"; "-c"; "1"; "-r"; "22050"; outPath])])%list.
Proof.
  unfold micRun.
  destruct (micRun_log outPath evs (recordMicrophone outPath)) as (Hc & Hk & Hs).
  rewrite Hc, Hk, Hs. repeat split.
Qed.

Lemma playRun_settled (evs : list PlayerEvent) (p : Player) :
  playPromise p <> StillPending ->
  playPromise (fold_left playStep evs p) = playPromise p /\
  playSpawned (fold_left playStep evs p) = playSpawned p.
Proof.
  revert p. induction evs as [| ev evs IH]; intros p Hp; [split; reflexivity |].
  cbn [fold_left].
  assert (Hstep : playPromise (playStep p ev) = playPromise p /\
                  playSpawned (playStep p ev) = playSpawned p).
  { destruct ev; cbn [playStep playPromise playSpawned];
      (destruct (playPromise p); [now contradiction Hp | split; reflexivity ..]). }
  destruct Hstep as [Hpr Hsp].
  destruct (IH (playStep p ev)) as [H1 H2]; [now rewrite Hpr |].
  rewrite H1, H2, Hpr, Hsp. split; reflexivity.
Qed.

(** X14.  The first event of the player decides the promise of [playAudioFile]: a
    'close' fulfils it with the exit code, whatever that code is, an 'error'
    rejects it, and what comes later changes nothing; until then it is
    pending.  The only processes spawned are the two silencing commands and
    [play] on the path. *)
Theorem first_player_event_settles_playback (path : string) (evs : list PlayerEvent) :
  playPromise (playRun path evs) =
    match evs with
    | [] => StillPending
    | PlayerClose code :: _ => Fulfilled code
    | PlayerError err :: _ => Failed err
    end /\
  playSpawned (playRun path evs) = (stopPlayingMusic ++ [("play", [path])])%list.
Proof.
  unfold playRun. destruct evs as [| ev evs]; [split; reflexivity |].
  cbn [fold_left].
  destruct (playRun_settled evs (playStep (playAudioFile path) ev)) as [Hp Hs].
  - destruct ev; discriminate.
  - rewrite Hp, Hs. destruct ev; split; reflexivity.
Qed.

(** ** More on the command and its speed *)

(** X10.  The anatomy of every command: it starts with the start time, the duration
    [endSecs - startSecs] and [noVideo]; it ends with the output path; it
    downmixes to one channel exactly when [toMono] is [true] (not when it is
    [false] or unset); and it sets the bitrate exactly when
    [bitrateConversion] is a truthy number. *)
Theorem command_anatomy
    (fractionToString : Q -> string) (path : string) (s : AudioSegmentSettings) :
  firstn 3 (options (cmd fractionToString path s)) =
    [setStartTime (startSecs s); setDuration (endSecs s - startSecs s)%num; noVideo] /\
  last (options (cmd fractionToString path s)) noVideo =
    output (newPath fractionToString path s) /\
  filter isAudioChannels (options (cmd fractionToString path s)) =
    (match toMono s with Some true => [audioChannels one] | _ => [] end) /\
  filter isAudioBitrate (options (cmd fractionToString path s)) =
    (match bitrateConversion s with
     | Some bitrate => if ToBoolean bitrate then [audioBitrate bitrate] else []
     | None => []
     end) /\
  input (cmd fractionToString path s) = path.
Proof.
  rewrite cmd_options. unfold truthy_bool.
  repeat split.
  - rewrite !app_assoc. apply last_last.
  - rewrite !filter_app.
    destruct (toMono s) as [[|] |];
      destruct (bitrateConversion s) as [b |]; try destruct (ToBoolean b);
      destruct (effectivePlaybackSpeed s != one)%num; reflexivity.
  - rewrite !filter_app.
    destruct (toMono s) as [[|] |];
      destruct (bitrateConversion s) as [b |]; try destruct (ToBoolean b);
      destruct (effectivePlaybackSpeed s != one)%num; reflexivity.
Qed.

(** X11.  Clamping is stable: asking for the effective playback speed of some
    settings gives that same effective speed. *)
Theorem effective_speed_is_stable (s : AudioSegmentSettings) :
  effectivePlaybackSpeed (settingsWithSpeed (Some (effectivePlaybackSpeed s))) =
    effectivePlaybackSpeed s.
Proof.
  unfold effectivePlaybackSpeed at 2 3.
  destruct (playbackSpeed s) as [v |]; [| reflexivity].
  destruct (ToBoolean v) eqn:Ht; cbn [negb]; [| reflexivity].
  destruct (v < half)%num eqn:Hlo; [reflexivity |].
  destruct (v > two)%num eqn:Hhi; [reflexivity |].
  unfold effectivePlaybackSpeed, settingsWithSpeed. cbn [playbackSpeed].
  rewrite Ht, Hlo, Hhi. reflexivity.
Qed.

(** ** Chunk files do not collide *)

Lemma append_inj_l (p x y : string) : p ++ x = p ++ y -> x = y.
Proof.
  induction p as [| a p IH]; cbn; intro H; [exact H |].
  injection H as H. exact (IH H).
Qed.

Lemma string_of_uint_digits (d : Decimal.uint) :
  digitsOnly (DecimalString.NilEmpty.string_of_uint d) = true.
Proof.
  induction d; cbn [DecimalString.NilEmpty.string_of_uint digitsOnly];
    try rewrite IHd; reflexivity.
Qed.

Lemma Z_to_string_digits (z : Z) : (0 <= z)%Z -> digitsOnly (Z_to_string z) = true.
Proof.
  destruct z as [| p | p]; intro Hz; [reflexivity | | lia].
  unfold Z_to_string, DecimalString.NilZero.string_of_uint.
  destruct (Pos.to_uint p); try apply string_of_uint_digits. reflexivity.
Qed.

Lemma Z_to_string_inj (x y : Z) :
  (0 <= x)%Z -> (0 <= y)%Z -> Z_to_string x = Z_to_string y -> x = y.
Proof.
  assert (Hzero : forall p, DecimalString.NilZero.string_of_uint (Pos.to_uint p) <> "0").
  { intros p H.
    assert (Hu : Pos.to_uint p = Decimal.D0 Decimal.Nil).
    { pose proof (DecimalString.NilZero.usu (Pos.to_uint p)
                    (DecimalPos.Unsigned.to_uint_nonnil p)) as Hp.
      rewrite H in Hp. cbn in Hp. now injection Hp as <-. }
    pose proof (DecimalPos.Unsigned.of_to p) as Hof. rewrite Hu in Hof. discriminate. }
  destruct x as [| p | p], y as [| q | q]; intros Hx Hy H; try lia; cbn in H.
  - symmetry in H. now apply Hzero in H.
  - now apply Hzero in H.
  - f_equal. apply DecimalPos.Unsigned.to_uint_inj.
    pose proof (DecimalString.NilZero.usu (Pos.to_uint p)
                  (DecimalPos.Unsigned.to_uint_nonnil p)) as Hp.
    pose proof (DecimalString.NilZero.usu (Pos.to_uint q)
                  (DecimalPos.Unsigned.to_uint_nonnil q)) as Hq.
    rewrite H in Hp. rewrite Hp in Hq. now injection Hq.
Qed.

(** Two strings of digits followed by the same character that is not a digit
    are told apart by what precedes that character. *)
Lemma digits_then_separator (sep : ascii) :
  isDigit sep = false ->
  forall a a' r r' : string,
    digitsOnly a = true -> digitsOnly a' = true ->
    a ++ String sep r = a' ++ String sep r' -> a = a' /\ r = r'.
Proof.
  intros Hsep. induction a as [| x a IH]; intros [| x' a'] r r' Ha Ha' H; cbn in H.
  - injection H as ->. split; reflexivity.
  - injection H as <- _. cbn in Ha'. rewrite Hsep in Ha'. discriminate.
  - injection H as -> _. cbn in Ha. rewrite Hsep in Ha. discriminate.
  - injection H as <- H. cbn in Ha, Ha'.
    apply andb_true_iff in Ha, Ha'.
    destruct (IH a' r r' (proj2 Ha) (proj2 Ha') H) as [-> ->]. split; reflexivity.
Qed.

(** X12.  Segments of one input with different whole-second bounds get different
    files: when the bounds of two settings are integers from 0 up to, but not
    including, 2^53 (the integers that print all their digits), equal output
    paths force equal start and equal end. *)
Theorem distinct_bounds_give_distinct_paths
    (fractionToString : Q -> string) (path : string) (s s' : AudioSegmentSettings)
    (a b a' b' : Z) :
  (0 <= a < 2 ^ 53)%Z -> (0 <= b < 2 ^ 53)%Z ->
  (0 <= a' < 2 ^ 53)%Z -> (0 <= b' < 2 ^ 53)%Z ->
  sameValue (startSecs s) (num_of_Z a) = true ->
  sameValue (endSecs s) (num_of_Z b) = true ->
  sameValue (startSecs s') (num_of_Z a') = true ->
  sameValue (endSecs s') (num_of_Z b') = true ->
  newPath fractionToString path s = newPath fractionToString path s' ->
  a = a' /\ b = b'.
Proof.
  intros Ha Hb Ha' Hb' Hsa Hsb Hsa' Hsb' Hpath.
  unfold newPath in Hpath.
  rewrite (numberToString_same _ _ _ Hsa), (numberToString_same _ _ _ Hsb),
    (numberToString_same _ _ _ Hsa'), (numberToString_same _ _ _ Hsb') in Hpath.
  rewrite !numberToString_integer in Hpath by (apply Z.abs_lt; lia).
  apply append_inj_l in Hpath.
  apply (append_inj_l ".segment-") in Hpath.
  apply (digits_then_separator "-" eq_refl) in Hpath;
    try (apply Z_to_string_digits; lia).
  destruct Hpath as [Hstart Hrest].
  apply (digits_then_separator "." eq_refl) in Hrest;
    try (apply Z_to_string_digits; lia).
  destruct Hrest as [Hend _].
  split; apply Z_to_string_inj; (lia || assumption).
Qed.

(** [distinct_bounds_give_distinct_paths] on two chunks of the 600 s file. *)
Lemma distinct_bounds_give_distinct_paths_witness :
  newPath plainFraction "a.wav" (chunkSettings (num_of_Z 0) (num_of_Z 300) one) <>
  newPath plainFraction "a.wav" (chunkSettings (num_of_Z 270) (num_of_Z 570) one).
Proof.
  intro H.
  destruct (distinct_bounds_give_distinct_paths plainFraction "a.wav"
              (chunkSettings (num_of_Z 0) (num_of_Z 300) one)
              (chunkSettings (num_of_Z 270) (num_of_Z 570) one)
              0 300 270 570 ltac:(lia) ltac:(lia) ltac:(lia) ltac:(lia)
              eq_refl eq_refl eq_refl eq_refl H) as [Hs _].
  discriminate Hs.
Defined.

(** ** The original file is never handed over as temporary *)

Lemma length_append (x y : string) :
  String.length (x ++ y) = (String.length x + String.length y)%nat.
Proof.
  induction x as [| a x IH]; cbn; [reflexivity | now rewrite IH].
Qed.

Lemma newPath_differs_from_path (fractionToString : Q -> string) (path : string)
    (s : AudioSegmentSettings) :
  newPath fractionToString path s <> path.
Proof.
  unfold newPath. intro H. apply (f_equal String.length) in H.
  rewrite length_append in H. cbn in H. lia.
Qed.

Lemma chunkCalls_temporary_files (fractionToString : Q -> string) (path : string)
    (speed : number) (tr : list Event) :
  chunkCalls fractionToString path speed tr ->
  forall file isTemporary, In (file, isTemporary) (handlerCalls tr) ->
    isTemporary = true /\
    exists a b, file = newPath fractionToString path (chunkSettings a b speed).
Proof.
  induction tr as [| ev | ev h rest IH] using by_pairs.
  - intros _ file isTemporary [].
  - intros (a & b & Hcall & _) file isTemporary. unfold handlerCalls. cbn [flat_map].
    rewrite Hcall. intros [].
  - intros (a & b & Hcall & _ & Hh & _ & Hrest) file isTemporary.
    unfold handlerCalls in *. cbn [flat_map]. rewrite Hcall, Hh. cbn [app].
    intros [H | Hin]; [| now apply (IH Hrest)].
    injection H as <- <-. split; [reflexivity | now exists a, b].
Qed.

(** X2.  A handler that deletes what it is given as temporary never deletes the
    input: whatever the calls do, every path the handler receives with
    [isTemporary = true] differs from the original path, and the original
    path is only ever received with [isTemporary = false]. *)
Theorem original_file_is_never_temporary
    (fractionToString : Q -> string) (World : Type)
    (ffprobe : string -> World -> (Error + FfprobeFormat) * World)
    (ffmpegRun : FfmpegCommand -> World -> option Error * World)
    (fProcess : Handler World)
    (fuel : nat) (path : string) (chunkSecs overlapSecs speed : number) (w0 : World)
    (file : string) (isTemporary : bool) :
  In (file, isTemporary)
     (handlerCalls
        (trace (snd (processAudioFileInChunks fractionToString World ffprobe
                       ffmpegRun fuel path chunkSecs overlapSecs speed fProcess
                       {| world := w0; trace := [] |})))) ->
  (isTemporary = true -> file <> path) /\ (file = path -> isTemporary = false).
Proof.
  destruct (processAudioFileInChunks_calls fractionToString World ffprobe ffmpegRun
              fProcess fuel path chunkSecs overlapSecs speed w0)
    as (pf & rest & -> & [[_ ->] | [-> [[hf ->] | Hcalls]]]).
  - intros [].
  - intros [H | []]. injection H as <- <-. split; [discriminate | reflexivity].
  - unfold handlerCalls. cbn [flat_map call app]. fold (handlerCalls rest). intro Hin.
    destruct (chunkCalls_temporary_files fractionToString path speed rest Hcalls
                file isTemporary Hin) as (-> & a & b & ->).
    split; intro H.
    + apply newPath_differs_from_path.
    + now apply newPath_differs_from_path in H.
Qed.

(** [original_file_is_never_temporary] on the first chunk of the 600 s file. *)
Lemma original_file_is_never_temporary_witness :
  "a.wav.segment-0-300.mp3" <> "a.wav".
Proof.
  apply (original_file_is_never_temporary plainFraction Disk
           (diskProbe (num_of_Z 600)) diskFfmpeg (diskHandler [])
           4 "a.wav" (num_of_Z 300) (num_of_Z 30) one ["a.wav"]
           "a.wav.segment-0-300.mp3" true).
  - vm_compute. left. reflexivity.
  - reflexivity.
Defined.

(** ** Where each chunk starts and ends *)

Lemma nth_error_snoc {A : Type} (l : list A) (x y : A) (i : nat) :
  nth_error (l ++ [x]) i = Some y ->
  nth_error l i = Some y \/ (i = List.length l /\ y = x).
Proof.
  intro H. destruct (Nat.lt_ge_cases i (List.length l)) as [Hlt | Hge].
  - left. now rewrite nth_error_app1 in H.
  - right. rewrite nth_error_app2 in H by exact Hge.
    destruct (i - List.length l)%nat as [| n] eqn:Hn.
    + cbn in H. injection H as <-. split; [lia | reflexivity].
    + cbn in H. destruct n; discriminate.
Qed.

Section ChunkPositions.

Variable fractionToString : Q -> string.
Variable World : Type.
Variable ffmpegRun : FfmpegCommand -> World -> option Error * World.
Variable fProcess : Handler World.

Variable path : string.
Variable speed : number.
Variable bitRate : number.

(** Whole seconds, as in [Chunking]. *)
Variables c o : Z.
Variable d : Q.
Hypothesis overlap_range : (0 <= o <= c)%Z.
Hypothesis chunk_range : (c <= 2 ^ 51)%Z.
Hypothesis duration_range : d <= inject_Z (2 ^ 52).

Local Notation "'loopFrom' fuel q" :=
  (chunkLoop fractionToString World ffmpegRun fuel path (num_of_Z c) (num_of_Z o)
     speed fProcess {| duration := Num d; bit_rate := bitRate |} (num_of_Z q))
  (at level 10, fuel at level 9, q at level 9, only parsing).

Local Notation "'placed' l" :=
  (forall i chunk, nth_error l i = Some chunk ->
                   chunkAtTurn (inject_Z c) (inject_Z o) d i chunk)
  (at level 10, only parsing).

Lemma turn_chunk_placed (k : nat) (q : Z) :
  q = (Z.of_nat k * (c - o))%Z ->
  chunkAtTurn (inject_Z c) (inject_Z o) d k
    (num_of_Z q, Math_min (num_of_Z (q + c)) (Num d)).
Proof.
  intros ->. unfold num_of_Z. cbn [Math_min num_lt].
  assert (Hstart : inject_Z (Z.of_nat k * (c - o))
                   == inject_Z (Z.of_nat k) * (inject_Z c - inject_Z o)).
  { unfold Z.sub, Qminus. now rewrite inject_Z_mult, inject_Z_plus, inject_Z_opp. }
  rewrite inject_Z_plus.
  destruct (Qlt_bool d (inject_Z (Z.of_nat k * (c - o)) + inject_Z c)) eqn:Hcut;
    cbn [chunkAtTurn].
  - apply Qlt_bool_iff in Hcut.
    split; [exact Hstart | split; intro; [lra | reflexivity]].
  - apply Qlt_bool_false_iff in Hcut.
    split; [exact Hstart | split; intro; [reflexivity | lra]].
Qed.

(** When the loop is about to extract chunk number [k], the chunks it adds
    are in place, whatever the calls do. *)
Lemma chunkLoop_chunks_placed :
  forall (fuel : nat) (q : Z) (st : State World),
    q = (Z.of_nat (List.length (chunks (trace st))) * (c - o))%Z ->
    placed (chunks (trace st)) ->
    placed (chunks (trace (snd (loopFrom fuel q st)))).
Proof.
  induction fuel as [| fuel IH]; intros q st Hq Hst; [exact Hst |].
  rewrite chunkLoop_turn. cbn [duration].
  change (num_of_Z q < Num d)%num with (Qlt_bool (inject_Z q) d).
  destruct (Qlt_bool (inject_Z q) d) eqn:Hlt; [| exact Hst].
  apply Qlt_bool_iff in Hlt. cbv zeta.
  assert (Hq0 : (0 <= q)%Z) by (rewrite Hq; apply Z.mul_nonneg_nonneg; lia).
  destruct (whole_turn c o d overlap_range chunk_range duration_range q Hq0 Hlt)
    as [Hend Hnext].
  rewrite Hend, Hnext.
  assert (Hnew : placed (chunks (trace st)
                           ++ [(num_of_Z q, Math_min (num_of_Z (q + c)) (Num d))])).
  { intros i chunk Hi. apply nth_error_snoc in Hi.
    destruct Hi as [Hi | [-> ->]]; [now apply Hst | now apply turn_chunk_placed]. }
  destruct (ffmpegRun _ (world st)) as [[err |] w].
  - cbn [snd]. rewrite chunks_segment. exact Hnew.
  - destruct (fProcess _ true w) as [[err |] w'].
    + cbn [snd]. rewrite chunks_handler, chunks_segment. exact Hnew.
    + apply IH; rewrite chunks_handler, chunks_segment; [| exact Hnew].
      rewrite length_app. cbn [List.length]. lia.
Qed.

End ChunkPositions.

(** X5.  Whatever the calls do and whatever the fuel: when [chunkSecs] and
    [overlapSecs] are whole seconds with [0 <= overlapSecs <= chunkSecs <=
    2^51] and the file is at most 2^52 seconds long, chunk number [i] (from
    0) of a run starts at [i * (chunkSecs - overlapSecs)] and ends
    [chunkSecs] later, or at the duration [d] if that comes first. *)
Theorem every_chunk_is_in_place
    (fractionToString : Q -> string) (World : Type)
    (ffprobe : string -> World -> (Error + FfprobeFormat) * World)
    (ffmpegRun : FfmpegCommand -> World -> option Error * World)
    (fProcess : Handler World)
    (fuel : nat) (path : string) (c o : Z) (d : Q) (speed : number) (w0 : World)
    (metadata : FfprobeFormat) (w : World) (i : nat) (chunk : number * number) :
  (0 <= o <= c)%Z -> (c <= 2 ^ 51)%Z ->
  ffprobe path w0 = (inr metadata, w) ->
  nullish (format_duration metadata) zero = Num d ->
  d <= inject_Z (2 ^ 52) ->
  nth_error
    (chunks (trace (snd (processAudioFileInChunks fractionToString World ffprobe
                           ffmpegRun fuel path (num_of_Z c) (num_of_Z o) speed fProcess
                           {| world := w0; trace := [] |})))) i = Some chunk ->
  chunkAtTurn (inject_Z c) (inject_Z o) d i chunk.
Proof.
  intros Hoc Hc Hprobe Hd Hmax.
  rewrite processAudioFileInChunks_unfold. cbn [world]. rewrite Hprobe.
  cbn [duration]. rewrite Hd.
  destruct (_ <= _)%num.
  - destruct (fProcess path false w) as [[err |] w']; cbn; destruct i; discriminate.
  - cbv zeta. revert i chunk.
    apply (chunkLoop_chunks_placed fractionToString World ffmpegRun fProcess path speed
             _ c o d Hoc Hc Hmax fuel 0%Z).
    + cbn. lia.
    + intros i chunk Hi. cbn in Hi. destruct i; discriminate.
Qed.

(** [every_chunk_is_in_place] on the second chunk of the 600 s file. *)
Lemma every_chunk_is_in_place_witness :
  chunkAtTurn (inject_Z 300) (inject_Z 30) (inject_Z 600) 1
    (num_of_Z 270, num_of_Z 570).
Proof.
  apply (every_chunk_is_in_place plainFraction Disk
           (diskProbe (num_of_Z 600)) diskFfmpeg (diskHandler [])
           4 "a.wav" 300 30 (inject_Z 600) one ["a.wav"]
           {| format_duration := Some (num_of_Z 600); format_bit_rate := None |}
           ["a.wav"] 1 (num_of_Z 270, num_of_Z 570)).
  - lia.
  - lia.
  - reflexivity.
  - reflexivity.
  - rewrite <- Zle_Qle. lia.
  - vm_compute. reflexivity.
Defined.
